(** * Mercurial signatures and delegatable anonymous credentials

    A shallow embedding of [mercurial_signature_scheme.py] and
    [delegatable_anon_cred_scheme.py], and the properties of the two
    signature variants and of the credential chain built from them.

    The pairing library ([bn254]: [big], [curve], [ecp], [ecp2], [fp12],
    [pair]) is not part of the repository; it enters as the interface
    [PairingLib], with the algebraic laws of a prime-order bilinear group.
    An instance over the integers modulo 11 is given at the end of the
    definitions and is used to run the code on concrete inputs. *)

From Stdlib Require Import ZArith List Bool Lia.
From Stdlib Require String.
Import String.StringSyntax.
Delimit Scope string_scope with string.
From Stdlib Require Import Zmod.
Import ListNotations.
Local Open Scope Z_scope.

(* ================================================================= *)
(** ** Python values: exceptions, the random source, lists *)

(** The exceptions the two modules can raise. *)
Inductive exn : Set :=
| TypeError
| AttributeError
| IndexError
| AssertionError.

(** The outcome of a call: a value, or an exception. *)
Inductive result (A : Type) : Type :=
| Ok (a : A)
| Raise (e : exn).
Arguments Ok {A} a.
Arguments Raise {A} e.

(** The random source behind [big.rand]: the sequence of the scalars it
    will return.  A draw takes the head and leaves the rest. *)
Definition tape : Type := nat -> Z.

Definition tl_tape (t : tape) : tape := fun n => t (S n).

(** Code that draws random scalars and may raise. *)
Definition M (A : Type) : Type := tape -> result (A * tape).

Class Monad (m : Type -> Type) : Type := {
  ret : forall {A : Type}, A -> m A;
  bind : forall {A B : Type}, m A -> (A -> m B) -> m B
}.

#[global] Instance result_monad : Monad result := {|
  ret := fun A a => Ok a;
  bind := fun A B c k => match c with Ok a => k a | Raise e => Raise e end
|}.

#[global] Instance M_monad : Monad M := {|
  ret := fun A a t => Ok (a, t);
  bind := fun A B c k t =>
            match c t with Ok (a, t') => k a t' | Raise e => Raise e end
|}.

Declare Scope monad_scope.
Delimit Scope monad_scope with monad.
Notation "x <- c ;; k" := (bind c (fun x => k))
  (at level 61, c at next level, right associativity) : monad_scope.
Notation "' pat <- c ;; k" := (bind c (fun x => match x with pat => k end))
  (at level 61, pat pattern, c at next level, right associativity) : monad_scope.
Notation "c ;;; k" := (bind c (fun _ => k))
  (at level 61, right associativity) : monad_scope.
Local Open Scope monad_scope.

(** A pure computation that may raise, run inside [M]. *)
Definition liftR {A : Type} (c : result A) : M A :=
  fun t => match c with Ok a => Ok (a, t) | Raise e => Raise e end.

(** [assert b]. *)
Definition assert (b : bool) : result unit :=
  if b then Ok tt else Raise AssertionError.

(** [functools.reduce(f, l)] without an initial value: the first element
    starts the accumulator, and the empty list raises [TypeError]. *)
Fixpoint reduce_from {A : Type} (f : A -> A -> result A) (acc : A)
  (l : list A) : result A :=
  match l with
  | [] => Ok acc
  | b :: l' => acc' <- f acc b ;; reduce_from f acc' l'
  end.

Definition reduce {A : Type} (f : A -> A -> result A) (l : list A)
  : result A :=
  match l with
  | [] => Raise TypeError
  | a :: l' => reduce_from f a l'
  end.

(** A list comprehension [[f x for x in l]] whose element expression may
    raise: the elements are computed left to right. *)
Fixpoint comprehension {A B : Type} (f : A -> result B) (l : list A)
  : result (list B) :=
  match l with
  | [] => Ok []
  | a :: l' => b <- f a ;; bs <- comprehension f l' ;; ret (b :: bs)
  end.

(** [zip] stops at the end of the shorter list. *)
Definition zip {A B : Type} (l : list A) (l' : list B) : list (A * B) :=
  combine l l'.

(** [range(n)]. *)
Definition range (n : Z) : list Z :=
  map Z.of_nat (seq 0 (Z.to_nat n)).

(** [len(l)]. *)
Definition len {A : Type} (l : list A) : Z := Z.of_nat (length l).

(** [l[i]]: a negative index counts from the end; out of range raises
    [IndexError]. *)
Definition getitem {A : Type} (l : list A) (i : Z) : result A :=
  let j := if i <? 0 then i + len l else i in
  if (j <? 0) || (len l <=? j) then Raise IndexError
  else match nth_error l (Z.to_nat j) with
       | Some a => Ok a
       | None => Raise IndexError
       end.

Fixpoint list_update {A : Type} (l : list A) (n : nat) (v : A) : list A :=
  match l, n with
  | [], _ => []
  | _ :: l', O => v :: l'
  | a :: l', S n' => a :: list_update l' n' v
  end.

(** [l[i] = v]. *)
Definition setitem {A : Type} (l : list A) (i : Z) (v : A)
  : result (list A) :=
  let j := if i <? 0 then i + len l else i in
  if (j <? 0) || (len l <=? j) then Raise IndexError
  else Ok (list_update l (Z.to_nat j) v).

(* ================================================================= *)
(** ** The pairing library *)

(** What the code uses of [bn254], with the laws of two groups of prime
    order [curve_r] and a bilinear pairing.  [pair_e] is the value of the
    pairing, with its arguments in the order of [pair.e]: the point of
    the second curve first.  [ecp_isinf] and [ecp2_isinf] tell the point
    at infinity, the identity of each group; a multiple [n * P] is the
    identity exactly when [n] is a multiple of the order or [P] is the
    identity. *)
Class PairingLib : Type := {
  ECp : Type;
  ECp2 : Type;
  Fp12 : Type;
  curve_r : Z;
  curve_x : Z;
  ecp_generator : ECp;
  ecp2_generator : ECp2;
  ecp_add : ECp -> ECp -> ECp;
  ecp_mul : Z -> ECp -> ECp;
  ecp_set : Z -> option ECp;
  ecp_isinf : ECp -> bool;
  ecp2_add : ECp2 -> ECp2 -> ECp2;
  ecp2_mul : Z -> ECp2 -> ECp2;
  ecp2_isinf : ECp2 -> bool;
  fp12_mul : Fp12 -> Fp12 -> Fp12;
  fp12_pow : Fp12 -> Z -> Fp12;
  fp12_eqb : Fp12 -> Fp12 -> bool;
  pair_e : ECp2 -> ECp -> Fp12;
  big_invmodp : Z -> Z -> Z;
  shake_256_big : String.string -> Z;

  curve_r_gt_1 : 1 < curve_r;
  big_invmodp_spec : forall a,
    a mod curve_r <> 0 -> (big_invmodp a curve_r * a) mod curve_r = 1;

  ecp_mul_add : forall n P Q,
    ecp_mul n (ecp_add P Q) = ecp_add (ecp_mul n P) (ecp_mul n Q);
  ecp_mul_mul : forall n m P, ecp_mul n (ecp_mul m P) = ecp_mul (n * m) P;
  ecp_mul_mod : forall n P, ecp_mul (n mod curve_r) P = ecp_mul n P;
  ecp_mul_1 : forall P, ecp_mul 1 P = P;
  ecp_isinf_mul : forall n P,
    ecp_isinf (ecp_mul n P) = (n mod curve_r =? 0) || ecp_isinf P;
  ecp_generator_not_inf : ecp_isinf ecp_generator = false;

  ecp2_mul_add : forall n P Q,
    ecp2_mul n (ecp2_add P Q) = ecp2_add (ecp2_mul n P) (ecp2_mul n Q);
  ecp2_mul_mul : forall n m P,
    ecp2_mul n (ecp2_mul m P) = ecp2_mul (n * m) P;
  ecp2_mul_mod : forall n P, ecp2_mul (n mod curve_r) P = ecp2_mul n P;
  ecp2_mul_1 : forall P, ecp2_mul 1 P = P;
  ecp2_isinf_mul : forall n P,
    ecp2_isinf (ecp2_mul n P) = (n mod curve_r =? 0) || ecp2_isinf P;
  ecp2_generator_not_inf : ecp2_isinf ecp2_generator = false;

  fp12_pow_mul : forall a b n,
    fp12_pow (fp12_mul a b) n = fp12_mul (fp12_pow a n) (fp12_pow b n);
  fp12_pow_pow : forall a n m,
    fp12_pow (fp12_pow a n) m = fp12_pow a (n * m);
  fp12_pow_mod : forall a n, fp12_pow a (n mod curve_r) = fp12_pow a n;
  fp12_pow_1 : forall a, fp12_pow a 1 = a;
  fp12_eqb_eq : forall a b, fp12_eqb a b = true <-> a = b;

  pair_e_mul_l : forall n Q P,
    pair_e (ecp2_mul n Q) P = fp12_pow (pair_e Q P) n;
  pair_e_mul_r : forall n Q P,
    pair_e Q (ecp_mul n P) = fp12_pow (pair_e Q P) n;
  pair_e_add_l : forall Q Q' P,
    pair_e (ecp2_add Q Q') P = fp12_mul (pair_e Q P) (pair_e Q' P);
  pair_e_add_r : forall Q P P',
    pair_e Q (ecp_add P P') = fp12_mul (pair_e Q P) (pair_e Q P')
}.

Section Points.
Context {L : PairingLib}.

(** A point as Python holds it: an [ecp.ECp] or an [ecp2.ECp2]; which of
    the two is known only at run time. *)
Inductive point : Type :=
| G1 (P : ECp)
| G2 (Q : ECp2).

(** [n * P], defined on both curves. *)
Definition point_mul (n : Z) (P : point) : point :=
  match P with
  | G1 a => G1 (ecp_mul n a)
  | G2 b => G2 (ecp2_mul n b)
  end.

(** [P.isinf()]. *)
Definition point_isinf (P : point) : bool :=
  match P with
  | G1 a => ecp_isinf a
  | G2 b => ecp2_isinf b
  end.

(** [P.add(Q)]: both points on the same curve; on points of different
    curves the attributes the method reads are missing. *)
Definition point_add (P Q : point) : result point :=
  match P, Q with
  | G1 a, G1 b => Ok (G1 (ecp_add a b))
  | G2 a, G2 b => Ok (G2 (ecp2_add a b))
  | _, _ => Raise AttributeError
  end.

(** [pair.e(P, Q)]: [P] on the second curve, [Q] on the first.  It
    raises [AttributeError] on a point of the wrong curve, and
    [TypeError] when one of the two points is the point at infinity;
    otherwise it returns the value of the pairing. *)
Definition e (P Q : point) : result Fp12 :=
  match P, Q with
  | G2 a, G1 b =>
      if ecp2_isinf a || ecp_isinf b then Raise TypeError
      else Ok (pair_e a b)
  | _, _ => Raise AttributeError
  end.

(** [a * b] in the target group. *)
Definition gt_mul (a b : Fp12) : result Fp12 := Ok (fp12_mul a b).

(** A signature [(z, y, yhat)]. *)
Definition signature : Type := point * point * point.

End Points.

(* ================================================================= *)
(** ** class MercurialSignatureScheme *)

Module MercurialSignatureScheme.
Section Scheme.
Context {L : PairingLib}.

(** [self.p], [self.phat]. *)
Definition p : point := G1 ecp_generator.
Definition phat : point := G2 ecp2_generator.

Definition random_zp : M Z :=
  fun t => Ok (t 0%nat, tl_tape t).

Fixpoint key_gen_loop (n : nat) (secret_key : list Z)
  (public_key : list point) : M (list point * list Z) :=
  match n with
  | O => ret (public_key, secret_key)
  | S n' =>
      x <- random_zp ;;
      let w := point_mul x phat in
      key_gen_loop n' (secret_key ++ [x]) (public_key ++ [w])
  end.

Definition key_gen (ell : Z) : M (list point * list Z) :=
  key_gen_loop (Z.to_nat ell) [] [].

Definition sign (secret_key : list Z) (message : list point)
  : M signature :=
  y <- random_zp ;;
  s <- liftR (reduce point_add
               (map (fun '(xi, mi) => point_mul xi mi)
                    (zip secret_key message))) ;;
  let z := point_mul y s in
  let y_inv := big_invmodp y curve_r in
  let y_inv_p := point_mul y_inv p in
  let y_inv_phat := point_mul y_inv phat in
  ret (z, y_inv_p, y_inv_phat).

Definition verify (public_key message : list point) (sig : signature)
  : result bool :=
  let '(z, y_inv_p, y_inv_phat) := sig in
  es <- comprehension (fun '(xi, mi) => e xi mi) (zip public_key message) ;;
  q1 <- reduce gt_mul es ;;
  a <- e y_inv_phat z ;;
  if fp12_eqb q1 a then
    b <- e phat y_inv_p ;;
    c <- e y_inv_phat p ;;
    ret (fp12_eqb b c)
  else ret false.

Definition convert_secret_key (secret_key : list Z) (rho : Z) : list Z :=
  map (fun xi => rho * xi) secret_key.

Definition convert_public_key (public_key : list point) (rho : Z)
  : list point :=
  map (fun Xi => point_mul rho Xi) public_key.

Definition convert_signature (public_key message : list point)
  (sig : signature) (rho : Z) : M signature :=
  let '(z, y, yhat) := sig in
  psi <- random_zp ;;
  ret (point_mul (psi * rho) z,
       point_mul (big_invmodp psi curve_r) y,
       point_mul (big_invmodp psi curve_r) yhat).

Definition change_representation (public_key message : list point)
  (sig : signature) (mu : Z) : M (list point * signature) :=
  let '(z, y, yhat) := sig in
  psi <- random_zp ;;
  let message0 := map (fun m => point_mul mu m) message in
  let signature0 :=
    (point_mul (psi * mu) z,
     point_mul (big_invmodp psi curve_r) y,
     point_mul (big_invmodp psi curve_r) yhat) in
  ret (message0, signature0).

(** The loop [while not hm_point.set(hm): hm = hm + 1], run for at most
    [fuel] tests; [None] when none of them succeeded. *)
Fixpoint hash_loop (fuel : nat) (hm : Z) : option ECp :=
  match fuel with
  | O => None
  | S fuel' =>
      match ecp_set hm with
      | Some P => Some P
      | None => hash_loop fuel' (hm + 1)
      end
  end.

Definition hash_message (fuel : nat) (message : String.string)
  : M (option point) :=
  let hm := shake_256_big message in
  match hash_loop fuel hm with
  | Some hm_point => ret (Some (G1 (ecp_mul curve_x hm_point)))
  | None => ret None
  end.

End Scheme.
End MercurialSignatureScheme.

(* ================================================================= *)
(** ** class MercurialSignatureDual(MercurialSignatureScheme) *)

Module MercurialSignatureDual.
Section Scheme.
Context {L : PairingLib}.

(** Inherited from the base class. *)
Definition p : point := MercurialSignatureScheme.p.
Definition phat : point := MercurialSignatureScheme.phat.
Definition random_zp : M Z := MercurialSignatureScheme.random_zp.
Definition convert_secret_key := MercurialSignatureScheme.convert_secret_key.
Definition convert_public_key := MercurialSignatureScheme.convert_public_key.
Definition convert_signature := MercurialSignatureScheme.convert_signature.
Definition change_representation :=
  MercurialSignatureScheme.change_representation.

(** Overridden. *)
Fixpoint key_gen_loop (n : nat) (secret_key : list Z)
  (public_key : list point) : M (list point * list Z) :=
  match n with
  | O => ret (public_key, secret_key)
  | S n' =>
      x <- random_zp ;;
      let w := point_mul x p in
      key_gen_loop n' (secret_key ++ [x]) (public_key ++ [w])
  end.

Definition key_gen (ell : Z) : M (list point * list Z) :=
  key_gen_loop (Z.to_nat ell) [] [].

Definition sign (secret_key : list Z) (message : list point)
  : M signature :=
  y <- random_zp ;;
  s <- liftR (reduce point_add
               (map (fun '(Xi, mi) => point_mul Xi mi)
                    (zip secret_key message))) ;;
  let z := point_mul y s in
  let y_inv := big_invmodp y curve_r in
  let y_inv_p := point_mul y_inv phat in
  let y_inv_phat := point_mul y_inv p in
  ret (z, y_inv_p, y_inv_phat).

Definition verify (public_key message : list point) (sig : signature)
  : result bool :=
  let '(z, y_inv_p, y_inv_phat) := sig in
  es <- comprehension (fun '(Xi, mi) => e mi Xi) (zip public_key message) ;;
  q1 <- reduce gt_mul es ;;
  a <- e z y_inv_phat ;;
  if fp12_eqb q1 a then
    b <- e y_inv_p p ;;
    c <- e phat y_inv_phat ;;
    ret (fp12_eqb b c)
  else ret false.

(** "not a real hash but sufficient for testing purposes":
    [big.rand(curve.r) * ecp2.generator().copy()]. *)
Definition hash_message (message : String.string) : M point :=
  k <- random_zp ;;
  ret (point_mul k (G2 ecp2_generator)).

End Scheme.
End MercurialSignatureDual.

(* ================================================================= *)
(** ** Scheme objects *)

(** The two classes an issuer scheme object can belong to; a method call
    on the object is dispatched on it. *)
Inductive scheme : Set :=
| Primary   (* MercurialSignatureScheme() *)
| Dual.     (* MercurialSignatureDual() *)

(** The values an attribute can hold besides a scheme object and numbers:
    a list of points, [None], a pair. *)
Inductive pyobj {L : PairingLib} : Type :=
| PyNone
| PyPoints (l : list point)
| PyTuple (a b : pyobj).

(** A method call [s.method(...)] on a scheme object [s]. *)
Section Dispatch.
Context {L : PairingLib}.

Definition scheme_key_gen (s : scheme) :=
  match s with
  | Primary => MercurialSignatureScheme.key_gen
  | Dual => MercurialSignatureDual.key_gen
  end.

Definition scheme_sign (s : scheme) :=
  match s with
  | Primary => MercurialSignatureScheme.sign
  | Dual => MercurialSignatureDual.sign
  end.

Definition scheme_verify (s : scheme) :=
  match s with
  | Primary => MercurialSignatureScheme.verify
  | Dual => MercurialSignatureDual.verify
  end.

Definition scheme_random_zp (s : scheme) : M Z :=
  match s with
  | Primary => MercurialSignatureScheme.random_zp
  | Dual => MercurialSignatureDual.random_zp
  end.

Definition scheme_convert_secret_key (s : scheme) :=
  match s with
  | Primary => MercurialSignatureScheme.convert_secret_key
  | Dual => MercurialSignatureDual.convert_secret_key
  end.

Definition scheme_convert_public_key (s : scheme) :=
  match s with
  | Primary => MercurialSignatureScheme.convert_public_key
  | Dual => MercurialSignatureDual.convert_public_key
  end.

Definition scheme_convert_signature (s : scheme) :=
  match s with
  | Primary => MercurialSignatureScheme.convert_signature
  | Dual => MercurialSignatureDual.convert_signature
  end.

Definition scheme_change_representation (s : scheme) :=
  match s with
  | Primary => MercurialSignatureScheme.change_representation
  | Dual => MercurialSignatureDual.change_representation
  end.

End Dispatch.

(* ================================================================= *)
(** ** class DelegatableAnonCredScheme *)

Module DelegatableAnonCredScheme.
Section DAC.
Context {L : PairingLib}.

(** The attributes of an instance. *)
Record t : Type := {
  even_issuer_scheme : scheme;
  odd_issuer_scheme : scheme;
  key_length : Z;
  initial_pk : list point;
  initial_sk : list Z;
  initial_nym : pyobj
}.

(** A credential chain [(nym_list, sig_list)]. *)
Definition cred_chain : Type := list (list point) * list signature.

(** [__init__]. *)
Definition init (key_length : Z) : M t :=
  let even_issuer_scheme := Dual in
  let odd_issuer_scheme := Primary in
  '(initial_pk, initial_sk) <- scheme_key_gen even_issuer_scheme key_length ;;
  ret {| even_issuer_scheme := even_issuer_scheme;
         odd_issuer_scheme := odd_issuer_scheme;
         key_length := key_length;
         initial_pk := initial_pk;
         initial_sk := initial_sk;
         initial_nym := PyTuple (PyPoints initial_pk) PyNone |}.

Definition key_gen (self : t)
  : M ((list point * list Z) * (list point * list Z)) :=
  '(even_pk, even_sk) <-
     scheme_key_gen (even_issuer_scheme self) (key_length self) ;;
  '(odd_pk, odd_sk) <-
     scheme_key_gen (odd_issuer_scheme self) (key_length self) ;;
  ret ((even_pk, even_sk), (odd_pk, odd_sk)).

Definition nym_gen (self : t) (even_pk : list point) (even_sk : list Z)
  (odd_pk : list point) (odd_sk : list Z)
  : M ((list point * list Z) * (list point * list Z)) :=
  even_rho <- scheme_random_zp (even_issuer_scheme self) ;;
  let even_sk :=
    scheme_convert_secret_key (even_issuer_scheme self) even_sk even_rho in
  let even_nym :=
    scheme_convert_public_key (even_issuer_scheme self) even_pk even_rho in
  odd_rho <- scheme_random_zp (odd_issuer_scheme self) ;;
  let odd_sk :=
    scheme_convert_secret_key (odd_issuer_scheme self) odd_sk odd_rho in
  let odd_nym :=
    scheme_convert_public_key (odd_issuer_scheme self) odd_pk odd_rho in
  ret ((even_nym, even_sk), (odd_nym, odd_sk)).

Definition issue_first (self : t) (initial_nym : list point)
  : M cred_chain :=
  sig1 <- scheme_sign (even_issuer_scheme self) (initial_sk self)
            initial_nym ;;
  ret ([initial_nym], [sig1]).

(** The scheme of the issuer at position [i]:
    [self.odd_issuer_scheme if i % 2 == 0 else self.even_issuer_scheme]. *)
Definition issuer_scheme_at (self : t) (i : Z) : scheme :=
  if i mod 2 =? 0 then odd_issuer_scheme self else even_issuer_scheme self.

(** The body of the loop of [issue_next], over the indices still to
    visit; the state is [(nym_list, sig_list, rho)]. *)
Fixpoint issue_next_loop (self : t) (indices : list Z)
  (nym_list : list (list point)) (sig_list : list signature) (rho : Z)
  : M (list (list point) * list signature * Z) :=
  match indices with
  | [] => ret (nym_list, sig_list, rho)
  | i :: indices' =>
      let issuer_scheme := issuer_scheme_at self i in
      nym_i <- liftR (getitem nym_list i) ;;
      nym_i1 <- liftR (getitem nym_list (i + 1)) ;;
      sig_i1 <- liftR (getitem sig_list (i + 1)) ;;
      sig_tilde <-
        scheme_convert_signature issuer_scheme nym_i nym_i1 sig_i1 rho ;;
      rho <- scheme_random_zp issuer_scheme ;;
      nym_i <- liftR (getitem nym_list i) ;;
      nym_i1 <- liftR (getitem nym_list (i + 1)) ;;
      '(nym', sig') <-
        scheme_change_representation issuer_scheme nym_i nym_i1
          sig_tilde rho ;;
      nym_list <- liftR (setitem nym_list (i + 1) nym') ;;
      sig_list <- liftR (setitem sig_list (i + 1) sig') ;;
      nym_i <- liftR (getitem nym_list i) ;;
      nym_i1 <- liftR (getitem nym_list (i + 1)) ;;
      sig_i1 <- liftR (getitem sig_list (i + 1)) ;;
      ok <- liftR (scheme_verify issuer_scheme nym_i nym_i1 sig_i1) ;;
      liftR (assert ok) ;;;
      issue_next_loop self indices' nym_list sig_list rho
  end.

(** [issue_next] updates the two lists of the chain it is given in place
    and returns them; here the updated lists are the result. *)
Definition issue_next (self : t) (chain : cred_chain)
  (new_nym : list point) (sk : list Z) : M cred_chain :=
  let '(nym_list, sig_list) := chain in
  liftR (assert (len nym_list =? len sig_list)) ;;;
  rho <- scheme_random_zp (even_issuer_scheme self) ;;
  nym_0 <- liftR (getitem nym_list 0) ;;
  sig_0 <- liftR (getitem sig_list 0) ;;
  '(nym', sig') <-
    scheme_change_representation (even_issuer_scheme self)
      (initial_pk self) nym_0 sig_0 rho ;;
  nym_list <- liftR (setitem nym_list 0 nym') ;;
  sig_list <- liftR (setitem sig_list 0 sig') ;;
  nym_0 <- liftR (getitem nym_list 0) ;;
  sig_0 <- liftR (getitem sig_list 0) ;;
  ok <- liftR (scheme_verify (even_issuer_scheme self) (initial_pk self)
                 nym_0 sig_0) ;;
  liftR (assert ok) ;;;
  '(nym_list, sig_list, rho) <-
    issue_next_loop self (range (len nym_list - 1)) nym_list sig_list rho ;;
  let nym_list := nym_list ++ [new_nym] in
  let issuer_scheme :=
    if len nym_list mod 2 =? 0 then odd_issuer_scheme self
    else even_issuer_scheme self in
  let sk := scheme_convert_secret_key issuer_scheme sk rho in
  sig_new <- scheme_sign issuer_scheme sk new_nym ;;
  let sig_list := sig_list ++ [sig_new] in
  nym_m2 <- liftR (getitem nym_list (-2)) ;;
  nym_m1 <- liftR (getitem nym_list (-1)) ;;
  sig_m1 <- liftR (getitem sig_list (-1)) ;;
  ok <- liftR (scheme_verify issuer_scheme nym_m2 nym_m1 sig_m1) ;;
  liftR (assert ok) ;;;
  ret (nym_list, sig_list).

(** The loop of [verify_chain]; [false] as soon as a link fails. *)
Fixpoint verify_chain_loop (self : t) (indices : list Z)
  (nym_list : list (list point)) (sig_list : list signature)
  : result bool :=
  match indices with
  | [] => ret true
  | i :: indices' =>
      let issuer_scheme := issuer_scheme_at self i in
      nym_i <- getitem nym_list i ;;
      nym_i1 <- getitem nym_list (i + 1) ;;
      sig_i1 <- getitem sig_list (i + 1) ;;
      ok <- scheme_verify issuer_scheme nym_i nym_i1 sig_i1 ;;
      if negb ok then ret false
      else verify_chain_loop self indices' nym_list sig_list
  end.

Definition verify_chain (self : t) (chain : cred_chain) : result bool :=
  let '(nym_list, sig_list) := chain in
  assert (len nym_list =? len sig_list) ;;;
  nym_0 <- getitem nym_list 0 ;;
  sig_0 <- getitem sig_list 0 ;;
  ok <- scheme_verify (even_issuer_scheme self) (initial_pk self)
          nym_0 sig_0 ;;
  if negb ok then ret false
  else verify_chain_loop self (range (len nym_list - 1)) nym_list sig_list.

End DAC.
End DelegatableAnonCredScheme.

(* ================================================================= *)
(** ** Vocabulary of the statements *)

Section Vocabulary.
Context {L : PairingLib}.

Definition rmap {A B : Type} (f : A -> B) (c : result A) : result B :=
  match c with Ok a => Ok (f a) | Raise x => Raise x end.

(** The pairing as a variant applies it to a point of a public key [X]
    and a point of a message [m]. *)
Definition pairing_of (s : scheme) (X m : point) : result Fp12 :=
  match s with
  | Primary => e X m
  | Dual => e m X
  end.

(** The value of the pairing of a point of a public key [X] and a point
    of a message [m], the point at infinity included. *)
Definition pairing_value (s : scheme) (X m : point) : result Fp12 :=
  match s, X, m with
  | Primary, G2 a, G1 b => Ok (pair_e a b)
  | Dual, G1 a, G2 b => Ok (pair_e b a)
  | _, _, _ => Raise AttributeError
  end.

(** The generator a variant's public keys are multiples of, and the
    generator of the group its messages live in. *)
Definition key_generator (s : scheme) : point :=
  match s with
  | Primary => MercurialSignatureScheme.phat
  | Dual => MercurialSignatureDual.p
  end.

Definition message_generator (s : scheme) : point :=
  match s with
  | Primary => MercurialSignatureScheme.p
  | Dual => MercurialSignatureDual.phat
  end.

Definition in_message_group (s : scheme) (P : point) : bool :=
  match s, P with
  | Primary, G1 _ => true
  | Dual, G2 _ => true
  | _, _ => false
  end.

Definition in_key_group (s : scheme) (P : point) : bool :=
  match s, P with
  | Primary, G2 _ => true
  | Dual, G1 _ => true
  | _, _ => false
  end.

(** The key-pair invariant: the public key of a secret key. *)
Definition public_key_of (s : scheme) (sk : list Z) : list point :=
  map (fun x => point_mul x (key_generator s)) sk.

(** A message of a variant: points of its message group. *)
Definition message_of (s : scheme) (message : list point) : Prop :=
  Forall (fun m => in_message_group s m = true) message.

(** The first [n] draws of a random source, and what is left of it. *)
Definition take_tape (n : nat) (t : tape) : list Z := map t (seq 0 n).

Definition drop_tape (n : nat) (t : tape) : tape := fun k => t (n + k)%nat.

(** A message of a variant none of whose points is the point at
    infinity. *)
Definition proper_message (s : scheme) (message : list point) : Prop :=
  Forall (fun m => in_message_group s m = true /\ point_isinf m = false)
    message.

(** The sum [sign] forms from a secret key and a message, before it
    scales it by [y]. *)
Definition signed_sum (secret_key : list Z) (message : list point)
  : result point :=
  reduce point_add
    (map (fun '(xi, mi) => point_mul xi mi) (zip secret_key message)).

(** The sum [sign] forms is not the point at infinity. *)
Definition signable (secret_key : list Z) (message : list point) : Prop :=
  exists sum,
    signed_sum secret_key message = Ok sum /\ point_isinf sum = false.

(** A scalar that [big.invmodp] can invert. *)
Definition unit_scalar (a : Z) : Prop := a mod curve_r <> 0.


(** A secret key of invertible scalars. *)
Definition unit_key (secret_key : list Z) : Prop :=
  Forall unit_scalar secret_key.

(** The signature the two conversions return for the drawn [psi] and
    the factor [c] applied to [z]. *)
Definition rescale (psi c : Z) (sig : signature) : signature :=
  let '(z, y, yhat) := sig in
  (point_mul (psi * c) z,
   point_mul (big_invmodp psi curve_r) y,
   point_mul (big_invmodp psi curve_r) yhat).

(** What [verify] computes, for either variant, in terms of the variant's
    pairing and generators. *)
Definition verify_with (s : scheme) (public_key message : list point)
  (sig : signature) : result bool :=
  let '(z, y, yhat) := sig in
  es <- comprehension (fun '(X, m) => pairing_of s X m)
          (zip public_key message) ;;
  q1 <- reduce gt_mul es ;;
  a <- pairing_of s yhat z ;;
  if fp12_eqb q1 a then
    b <- pairing_of s (key_generator s) y ;;
    c <- pairing_of s yhat (message_generator s) ;;
    ret (fp12_eqb b c)
  else ret false.

(** [verify] computed on the values of the pairings, as if [pair.e]
    accepted the point at infinity. *)
Definition verify_value (s : scheme) (public_key message : list point)
  (sig : signature) : result bool :=
  let '(z, y, yhat) := sig in
  es <- comprehension (fun '(X, m) => pairing_value s X m)
          (zip public_key message) ;;
  q1 <- reduce gt_mul es ;;
  a <- pairing_value s yhat z ;;
  if fp12_eqb q1 a then
    b <- pairing_value s (key_generator s) y ;;
    c <- pairing_value s yhat (message_generator s) ;;
    ret (fp12_eqb b c)
  else ret false.

(** What [verify] needs to reach its comparisons: no point it pairs is
    the point at infinity. *)
Definition proper_inputs (public_key message : list point)
  (sig : signature) : Prop :=
  let '(z, y, yhat) := sig in
  Forall (fun '(X, m) => point_isinf X = false /\ point_isinf m = false)
    (zip public_key message) /\
  point_isinf z = false /\ point_isinf y = false /\
  point_isinf yhat = false.

(** What [sign] returns when it draws [y]. *)
Definition sign_with (s : scheme) (y : Z) (secret_key : list Z)
  (message : list point) : result signature :=
  sum <- reduce point_add
           (map (fun '(xi, mi) => point_mul xi mi)
                (zip secret_key message)) ;;
  ret (point_mul y sum,
       point_mul (big_invmodp y curve_r) (message_generator s),
       point_mul (big_invmodp y curve_r) (key_generator s)).

(** *** Credential chains *)

(** The root link: [sig_list[0]] verifies over [nym_list[0]] under
    [initial_pk], in the scheme of the even issuers. *)
Definition root_link (self : DelegatableAnonCredScheme.t)
  (nym_list : list (list point)) (sig_list : list signature) : Prop :=
  exists nym_0 sig_0,
    nth_error nym_list 0 = Some nym_0 /\
    nth_error sig_list 0 = Some sig_0 /\
    scheme_verify (DelegatableAnonCredScheme.even_issuer_scheme self)
      (DelegatableAnonCredScheme.initial_pk self) nym_0 sig_0 = Ok true.

(** Link [i]: [sig_list[i+1]] verifies over [nym_list[i+1]] under
    [nym_list[i]], in the scheme of the issuer at position [i]. *)
Definition link (self : DelegatableAnonCredScheme.t)
  (nym_list : list (list point)) (sig_list : list signature) (i : nat)
  : Prop :=
  exists nym_i nym_i1 sig_i1,
    nth_error nym_list i = Some nym_i /\
    nth_error nym_list (S i) = Some nym_i1 /\
    nth_error sig_list (S i) = Some sig_i1 /\
    scheme_verify
      (DelegatableAnonCredScheme.issuer_scheme_at self (Z.of_nat i))
      nym_i nym_i1 sig_i1 = Ok true.

(** Every link of a chain verifies. *)
Definition links_verify (self : DelegatableAnonCredScheme.t)
  (chain : DelegatableAnonCredScheme.cred_chain) : Prop :=
  length (fst chain) = length (snd chain) /\
  root_link self (fst chain) (snd chain) /\
  forall i, (S i < length (fst chain))%nat ->
            link self (fst chain) (snd chain) i.


(** Pseudonym by pseudonym, [nyms'] holds scalar multiples of the points
    of [nyms]. *)
Definition rescaled_nyms (nyms nyms' : list (list point)) : Prop :=
  Forall2 (fun nym nym' => exists c, nym' = map (point_mul c) nym)
    nyms nyms'.

(** The variant that checks link [i] of a chain. *)
Definition variant_at (i : nat) : scheme :=
  if Nat.even i then Primary else Dual.








End Vocabulary.

(* ================================================================= *)
(** ** A small pairing library *)

(** Both curves and the target group are the integers modulo 11, the
    pairing is the product, and the power in the target group is the
    scalar multiple.  The laws of [PairingLib] hold in it, and the code
    above runs in it. *)
Module Z11.

Definition smul (n : Z) (P : Zmod 11) : Zmod 11 :=
  Zmod.mul (Zmod.of_Z 11 n) P.

Lemma prime_11 : Z.prime 11.
Proof.
  split; [lia|]. intros n Hn Hd.
  apply Z.mod_divide in Hd; [|lia].
  assert (n = 2 \/ n = 3 \/ n = 4 \/ n = 5 \/ n = 6 \/ n = 7 \/
          n = 8 \/ n = 9 \/ n = 10) as H by lia.
  repeat (destruct H as [H|H]; [subst n; discriminate Hd|]).
  subst n; discriminate Hd.
Qed.

Lemma smul_add n P Q :
  smul n (Zmod.add P Q) = Zmod.add (smul n P) (smul n Q).
Proof.
  unfold smul.
  rewrite (Zmod.mul_comm _ (Zmod.add P Q)), Zmod.mul_add_l.
  now rewrite !(Zmod.mul_comm (Zmod.of_Z 11 n)).
Qed.

Lemma smul_smul n m P : smul n (smul m P) = smul (n * m) P.
Proof. unfold smul. now rewrite Zmod.mul_assoc, Zmod.of_Z_mul. Qed.

Lemma smul_mod n P : smul (n mod 11) P = smul n P.
Proof. unfold smul. now rewrite Zmod.of_Z_mod. Qed.

Lemma smul_1 P : smul 1 P = P.
Proof. unfold smul. now rewrite Zmod.of_Z_1, Zmod.mul_1_l. Qed.

Lemma smul_mul_l n Q P : Zmod.mul (smul n Q) P = smul n (Zmod.mul Q P).
Proof. unfold smul. now rewrite Zmod.mul_assoc. Qed.

Lemma smul_mul_r n Q P : Zmod.mul Q (smul n P) = smul n (Zmod.mul Q P).
Proof.
  unfold smul.
  now rewrite Zmod.mul_assoc, (Zmod.mul_comm Q), <- Zmod.mul_assoc.
Qed.

Lemma mul_add_r (Q P P' : Zmod 11) :
  Zmod.mul Q (Zmod.add P P') = Zmod.add (Zmod.mul Q P) (Zmod.mul Q P').
Proof.
  rewrite (Zmod.mul_comm Q), Zmod.mul_add_l.
  now rewrite !(Zmod.mul_comm Q).
Qed.

Lemma smul_smul' a n m : smul m (smul n a) = smul (n * m) a.
Proof. now rewrite smul_smul, Z.mul_comm. Qed.

Definition isinf (P : Zmod 11) : bool := Zmod.to_Z P =? 0.

Lemma isinf_smul n P :
  isinf (smul n P) = (n mod 11 =? 0) || isinf P.
Proof.
  unfold isinf, smul.
  rewrite Zmod.unsigned_mul, Zmod.unsigned_of_Z.
  pose proof (Zmod.unsigned_pos_bound P eq_refl) as HP.
  pose proof (Z.mod_pos_bound n 11 eq_refl) as Hn.
  set (k := n mod 11) in *. set (q := Zmod.to_Z P) in *.
  assert (k = 0 \/ k = 1 \/ k = 2 \/ k = 3 \/ k = 4 \/ k = 5 \/ k = 6 \/
          k = 7 \/ k = 8 \/ k = 9 \/ k = 10) as Hk by lia.
  assert (q = 0 \/ q = 1 \/ q = 2 \/ q = 3 \/ q = 4 \/ q = 5 \/ q = 6 \/
          q = 7 \/ q = 8 \/ q = 9 \/ q = 10) as Hq by lia.
  clearbody k q. clear HP Hn.
  repeat (destruct Hk as [Hk|Hk]; [subst k|]); try subst k;
    repeat (destruct Hq as [Hq|Hq];
            [subst q; reflexivity|]); subst q; reflexivity.
Qed.

Definition lib : PairingLib := {|
  ECp := Zmod 11;
  ECp2 := Zmod 11;
  Fp12 := Zmod 11;
  curve_r := 11;
  curve_x := 1;
  ecp_generator := Zmod.of_Z 11 1;
  ecp2_generator := Zmod.of_Z 11 2;
  ecp_add := Zmod.add;
  ecp_mul := smul;
  ecp_set := fun x => if Z.even x then Some (Zmod.of_Z 11 x) else None;
  ecp_isinf := isinf;
  ecp2_add := Zmod.add;
  ecp2_mul := smul;
  ecp2_isinf := isinf;
  fp12_mul := Zmod.add;
  fp12_pow := fun a n => smul n a;
  fp12_eqb := Zmod.eqb;
  pair_e := Zmod.mul;
  big_invmodp := Z.invmod;
  shake_256_big := fun s => Z.of_nat (String.length s);
  curve_r_gt_1 := eq_refl;
  big_invmodp_spec := fun a H => Z.invmod_prime a 11 prime_11 H;
  ecp_mul_add := smul_add;
  ecp_mul_mul := smul_smul;
  ecp_mul_mod := smul_mod;
  ecp_mul_1 := smul_1;
  ecp_isinf_mul := isinf_smul;
  ecp_generator_not_inf := eq_refl;
  ecp2_mul_add := smul_add;
  ecp2_mul_mul := smul_smul;
  ecp2_mul_mod := smul_mod;
  ecp2_mul_1 := smul_1;
  ecp2_isinf_mul := isinf_smul;
  ecp2_generator_not_inf := eq_refl;
  fp12_pow_mul := fun a b n => smul_add n a b;
  fp12_pow_pow := smul_smul';
  fp12_pow_mod := fun a n => smul_mod n a;
  fp12_pow_1 := smul_1;
  fp12_eqb_eq := @Zmod.eqb_eq 11;
  pair_e_mul_l := smul_mul_l;
  pair_e_mul_r := smul_mul_r;
  pair_e_add_l := @Zmod.mul_add_l 11;
  pair_e_add_r := mul_add_r
|}.

(** Points of the two curves, by their residue. *)
Definition g1 (x : Z) : @point lib := G1 (Zmod.of_Z 11 x : @ECp lib).
Definition g2 (x : Z) : @point lib := G2 (Zmod.of_Z 11 x : @ECp2 lib).

(** A random source that repeats 2, 3, 5, 7. *)
Definition draws : tape :=
  fun n => match Nat.modulo n 4 with
           | 0%nat => 2 | 1%nat => 3 | 2%nat => 5 | _ => 7
           end.


(** The same random source, with a zero as its first scalar. *)
Definition zero_first : tape :=
  fun n => match n with 0%nat => 0 | _ => draws n end.

(** The instance [DelegatableAnonCredScheme(2)] built from [draws]. *)
Definition dac : DelegatableAnonCredScheme.t := {|
  DelegatableAnonCredScheme.even_issuer_scheme := Dual;
  DelegatableAnonCredScheme.odd_issuer_scheme := Primary;
  DelegatableAnonCredScheme.key_length := 2;
  DelegatableAnonCredScheme.initial_pk := [g1 2; g1 3];
  DelegatableAnonCredScheme.initial_sk := [2; 3];
  DelegatableAnonCredScheme.initial_nym :=
    PyTuple (PyPoints [g1 2; g1 3]) PyNone
|}.



(** The chain [issue_first] returns on Alice's odd pseudonym. *)
Definition chain1 : DelegatableAnonCredScheme.cred_chain :=
  ([[g2 8; g2 9]], [(g2 9, g2 1, g1 6)]).

(** The chain [issue_next] returns on [chain1], Bob's even pseudonym and
    Alice's odd secret key, drawing from [draws]. *)
Definition chain2 : DelegatableAnonCredScheme.cred_chain :=
  ([[g2 5; g2 7]; [g1 6; g1 10]],
   [(g2 10, g2 4, g1 2); (g1 8, g1 9, g2 7)]).






End Z11.

(* ================================================================= *)
(** ** Lists, exceptions and the random source *)

Section Basics.

Lemma zip_map_l {A B C : Type} (g : A -> C) (l : list A) (l' : list B) :
  zip (map g l) l' = map (fun '(a, b) => (g a, b)) (zip l l').
Proof.
  revert l'. induction l as [|a l IH]; intros [|b l']; simpl; trivial.
  unfold zip in IH. now rewrite IH.
Qed.

Lemma zip_firstn {A B : Type} (l : list A) (l' : list B) :
  zip l l' =
  zip (firstn (Nat.min (length l) (length l')) l)
      (firstn (Nat.min (length l) (length l')) l').
Proof.
  revert l'. induction l as [|a l IH]; intros [|b l']; simpl; trivial.
  unfold zip in IH. now rewrite <- IH.
Qed.



Lemma length_list_update {A : Type} (l : list A) (n : nat) (v : A) :
  length (list_update l n v) = length l.
Proof.
  revert n. induction l as [|a l IH]; intros [|n]; simpl; trivial.
  now rewrite IH.
Qed.

Lemma getitem_nat {A : Type} (l : list A) (k : nat) (a : A) :
  nth_error l k = Some a -> getitem l (Z.of_nat k) = Ok a.
Proof.
  intro H. unfold getitem, len.
  assert (k < length l)%nat as Hk by (apply nth_error_Some; congruence).
  assert ((Z.of_nat k <? 0) = false) as E1 by (apply Z.ltb_ge; lia).
  assert ((Z.of_nat (length l) <=? Z.of_nat k) = false) as E2
    by (apply Z.leb_gt; lia).
  cbv zeta. rewrite E1. cbv iota. rewrite E1, E2. simpl.
  now rewrite Nat2Z.id, H.
Qed.

Lemma getitem_Ok {A : Type} (l : list A) (i : Z) (a : A) :
  0 <= i -> getitem l i = Ok a -> nth_error l (Z.to_nat i) = Some a.
Proof.
  intros Hi. unfold getitem.
  assert ((i <? 0) = false) as E1 by (apply Z.ltb_ge; lia).
  cbv zeta. rewrite E1. cbv iota. rewrite E1.
  destruct (false || (len l <=? i)); [discriminate|].
  destruct (nth_error l (Z.to_nat i)); congruence.
Qed.



Lemma range_seq (n : nat) : range (Z.of_nat n) = map Z.of_nat (seq 0 n).
Proof. unfold range. now rewrite Nat2Z.id. Qed.


End Basics.

(* ================================================================= *)
(** ** The algebra of the two variants *)

Section Algebra.
Context {L : PairingLib}.

Lemma point_mul_1 (P : point) : point_mul 1 P = P.
Proof. destruct P; simpl; now rewrite ?ecp_mul_1, ?ecp2_mul_1. Qed.

Lemma point_mul_mul (n m : Z) (P : point) :
  point_mul n (point_mul m P) = point_mul (n * m) P.
Proof. destruct P; simpl; now rewrite ?ecp_mul_mul, ?ecp2_mul_mul. Qed.

Lemma map_point_mul_1 (l : list point) : map (point_mul 1) l = l.
Proof.
  induction l as [|P l IH]; simpl; trivial.
  now rewrite point_mul_1, IH.
Qed.

Lemma in_message_group_mul (s : scheme) (n : Z) (P : point) :
  in_message_group s (point_mul n P) = in_message_group s P.
Proof. now destruct s, P. Qed.

Lemma key_generator_in_key_group (s : scheme) :
  in_key_group s (key_generator s) = true.
Proof. now destruct s. Qed.

Lemma message_generator_in_message_group (s : scheme) :
  in_message_group s (message_generator s) = true.
Proof. now destruct s. Qed.

Lemma pairing_value_defined (s : scheme) (X m : point) :
  in_key_group s X = true -> in_message_group s m = true ->
  exists v, pairing_value s X m = Ok v.
Proof. destruct s, X, m; simpl; try discriminate; eauto. Qed.

(** Bilinearity, on run-time points. *)
Lemma pairing_value_mul (s : scheme) (a b : Z) (X m : point) :
  pairing_value s (point_mul a X) (point_mul b m) =
  rmap (fun v => fp12_pow v (a * b)) (pairing_value s X m).
Proof.
  destruct s, X, m; simpl; trivial.
  - now rewrite pair_e_mul_l, pair_e_mul_r, fp12_pow_pow, Z.mul_comm.
  - now rewrite pair_e_mul_l, pair_e_mul_r, fp12_pow_pow.
Qed.

Lemma pairing_value_mul_l (s : scheme) (a : Z) (X m : point) :
  pairing_value s (point_mul a X) m =
  rmap (fun v => fp12_pow v a) (pairing_value s X m).
Proof.
  rewrite <- (point_mul_1 m) at 1.
  now rewrite pairing_value_mul, Z.mul_1_r.
Qed.

Lemma pairing_value_mul_r (s : scheme) (b : Z) (X m : point) :
  pairing_value s X (point_mul b m) =
  rmap (fun v => fp12_pow v b) (pairing_value s X m).
Proof.
  rewrite <- (point_mul_1 X) at 1.
  now rewrite pairing_value_mul, Z.mul_1_l.
Qed.

Lemma pairing_value_add (s : scheme) (X m m' sum : point) :
  point_add m m' = Ok sum ->
  pairing_value s X sum =
  (va <- pairing_value s X m ;; vb <- pairing_value s X m' ;;
   ret (fp12_mul va vb)).
Proof.
  destruct s, X, m, m'; simpl; intro H; inversion H; subst; simpl; trivial.
  - now rewrite pair_e_add_r.
  - now rewrite pair_e_add_l.
Qed.

Lemma point_add_message_group (s : scheme) (m m' : point) :
  in_message_group s m = true -> in_message_group s m' = true ->
  exists sum, point_add m m' = Ok sum /\ in_message_group s sum = true.
Proof. destruct s, m, m'; simpl; try discriminate; eauto. Qed.

(** Powers by multiples of an inverse pair. *)
Lemma fp12_pow_unit (v : Fp12) (psi k : Z) :
  unit_scalar psi ->
  fp12_pow v (big_invmodp psi curve_r * (psi * k)) = fp12_pow v k.
Proof.
  intro H. rewrite <- (fp12_pow_mod v (_ * _)), <- (fp12_pow_mod v k).
  f_equal. rewrite Z.mul_assoc, Zmult_mod.
  rewrite (big_invmodp_spec psi H), Z.mul_1_l.
  apply Zmod_mod.
Qed.

Lemma fp12_eqb_refl (v : Fp12) : fp12_eqb v v = true.
Proof. now apply fp12_eqb_eq. Qed.

(** The two methods are the same computation on the variant's pairing. *)
Lemma scheme_verify_with (s : scheme) pk message sig :
  scheme_verify s pk message sig = verify_with s pk message sig.
Proof. destruct s, sig as [[z y] yhat]; reflexivity. Qed.

Lemma scheme_sign_with (s : scheme) sk message (t : tape) :
  scheme_sign s sk message t =
  match sign_with s (t 0%nat) sk message with
  | Ok sig => Ok (sig, tl_tape t)
  | Raise x => Raise x
  end.
Proof.
  destruct s; simpl;
    unfold MercurialSignatureScheme.sign, MercurialSignatureDual.sign,
      sign_with; simpl;
    unfold liftR;
    destruct (reduce point_add _); reflexivity.
Qed.

Lemma scheme_convert_signature_eq (s : scheme) pk message sig rho t :
  scheme_convert_signature s pk message sig rho t =
  Ok (rescale (t 0%nat) rho sig, tl_tape t).
Proof. destruct s, sig as [[z y] yhat]; reflexivity. Qed.

Lemma scheme_change_representation_eq (s : scheme) pk message sig mu t :
  scheme_change_representation s pk message sig mu t =
  Ok ((map (point_mul mu) message, rescale (t 0%nat) mu sig), tl_tape t).
Proof. destruct s, sig as [[z y] yhat]; reflexivity. Qed.

Lemma scheme_random_zp_eq (s : scheme) (t : tape) :
  scheme_random_zp s t = Ok (t 0%nat, tl_tape t).
Proof. destruct s; reflexivity. Qed.

Lemma scheme_convert_secret_key_eq (s : scheme) sk rho :
  scheme_convert_secret_key s sk rho = map (fun xi => rho * xi) sk.
Proof. destruct s; reflexivity. Qed.

Lemma scheme_convert_public_key_eq (s : scheme) pk rho :
  scheme_convert_public_key s pk rho = map (point_mul rho) pk.
Proof. destruct s; reflexivity. Qed.

(** Converting the secret key converts its public key. *)
Lemma public_key_of_convert (s : scheme) (sk : list Z) (rho : Z) :
  public_key_of s (map (fun xi => rho * xi) sk) =
  map (point_mul rho) (public_key_of s sk).
Proof.
  unfold public_key_of. rewrite !map_map.
  apply map_ext. intro x. now rewrite point_mul_mul.
Qed.

End Algebra.

(* ================================================================= *)
(** ** Signing, verifying and re-randomising *)

Section Signatures.
Context {L : PairingLib}.

Lemma reduce_from_pow (k : Z) (acc : Fp12) (vs : list Fp12) :
  reduce_from gt_mul (fp12_pow acc k) (map (fun v => fp12_pow v k) vs) =
  rmap (fun v => fp12_pow v k) (reduce_from gt_mul acc vs).
Proof.
  revert acc. induction vs as [|v vs IH]; intro acc; simpl; trivial.
  now rewrite <- fp12_pow_mul, IH.
Qed.

Lemma reduce_pow (k : Z) (vs : list Fp12) :
  reduce gt_mul (map (fun v => fp12_pow v k) vs) =
  rmap (fun v => fp12_pow v k) (reduce gt_mul vs).
Proof. destruct vs as [|v vs]; simpl; trivial. apply reduce_from_pow. Qed.

Lemma comprehension_scaled (s : scheme) (a b : Z) (pk message : list point) :
  comprehension (fun '(X, m) => pairing_value s X m)
    (zip (map (point_mul a) pk) (map (point_mul b) message)) =
  rmap (map (fun v => fp12_pow v (a * b)))
    (comprehension (fun '(X, m) => pairing_value s X m) (zip pk message)).
Proof.
  unfold zip. revert message.
  induction pk as [|X pk IH]; intros [|m message]; simpl; trivial.
  rewrite pairing_value_mul, IH.
  destruct (pairing_value s X m); simpl; trivial.
  now destruct (comprehension _ (combine pk message)).
Qed.

(** Scaling the public key by [a] and the message by [b], with the
    signature rescaled by [a * b] under an invertible [psi], keeps a
    valid signature valid. *)
Lemma verify_value_rescale (s : scheme) (pk message : list point)
  (sig : signature) (a b psi : Z) :
  verify_value s pk message sig = Ok true ->
  unit_scalar psi ->
  verify_value s (map (point_mul a) pk) (map (point_mul b) message)
    (rescale psi (a * b) sig) = Ok true.
Proof.
  destruct sig as [[z y] yhat]. unfold verify_value, rescale.
  intros H Hpsi. rewrite comprehension_scaled.
  destruct (comprehension _ (zip pk message)) as [es|]; simpl in *;
    [|discriminate].
  rewrite reduce_pow.
  destruct (reduce gt_mul es) as [q1|]; simpl in *; [|discriminate].
  rewrite pairing_value_mul.
  destruct (pairing_value s yhat z) as [v|]; simpl in *; [|discriminate].
  destruct (fp12_eqb q1 v) eqn:E; [|discriminate].
  apply fp12_eqb_eq in E. subst v.
  rewrite fp12_pow_unit, fp12_eqb_refl by assumption.
  rewrite pairing_value_mul_r, pairing_value_mul_l.
  destruct (pairing_value s (key_generator s) y) as [vb|]; simpl in *;
    [|discriminate].
  destruct (pairing_value s yhat (message_generator s)) as [vc|]; simpl in *;
    [|discriminate].
  injection H as H. apply fp12_eqb_eq in H. subst vc.
  now rewrite fp12_eqb_refl.
Qed.

(** [convert_signature] with [convert_public_key]. *)
Lemma verify_value_convert (s : scheme) pk message sig rho psi :
  verify_value s pk message sig = Ok true ->
  unit_scalar psi ->
  verify_value s (map (point_mul rho) pk) message (rescale psi rho sig)
  = Ok true.
Proof.
  intros H Hpsi.
  pose proof (verify_value_rescale s pk message sig rho 1 psi H Hpsi) as H'.
  now rewrite map_point_mul_1, Z.mul_1_r in H'.
Qed.

(** [change_representation]. *)
Lemma verify_value_change (s : scheme) pk message sig mu psi :
  verify_value s pk message sig = Ok true ->
  unit_scalar psi ->
  verify_value s pk (map (point_mul mu) message) (rescale psi mu sig)
  = Ok true.
Proof.
  intros H Hpsi.
  pose proof (verify_value_rescale s pk message sig 1 mu psi H Hpsi) as H'.
  now rewrite map_point_mul_1, Z.mul_1_l in H'.
Qed.

(** A signature only verifies when the key and the message share at
    least one position. *)
Lemma verify_value_nonempty (s : scheme) pk message sig :
  verify_value s pk message sig = Ok true -> zip pk message <> [].
Proof.
  destruct sig as [[z y] yhat]. unfold verify_value.
  intros H E. rewrite E in H. discriminate.
Qed.

(** The sum [sign] forms and the product [verify] forms, side by side:
    pairing the key generator with the sum gives the product. *)
Lemma sum_and_product (s : scheme) (l : list (Z * point))
  (acc : point) (qacc : Fp12) :
  Forall (fun '(_, m) => in_message_group s m = true) l ->
  in_message_group s acc = true ->
  pairing_value s (key_generator s) acc = Ok qacc ->
  exists sum es q,
    reduce_from point_add acc (map (fun '(xi, mi) => point_mul xi mi) l)
      = Ok sum /\
    comprehension (fun '(X, m) => pairing_value s X m)
      (map (fun '(x, m) => (point_mul x (key_generator s), m)) l) = Ok es /\
    reduce_from gt_mul qacc es = Ok q /\
    in_message_group s sum = true /\
    pairing_value s (key_generator s) sum = Ok q.
Proof.
  revert acc qacc.
  induction l as [|[x m] l IH]; intros acc qacc Hl Hacc Hq; simpl.
  - exists acc, [], qacc. auto.
  - inversion Hl as [|? ? Hm Hl']; subst.
    destruct (pairing_value_defined s (key_generator s) m
                (key_generator_in_key_group s) Hm) as [v Hv].
    destruct (point_add_message_group s acc (point_mul x m) Hacc)
      as [acc' [Hadd Hacc']]; [now rewrite in_message_group_mul|].
    assert (pairing_value s (key_generator s) acc' = Ok (fp12_mul qacc (fp12_pow v x)))
      as Hq'.
    { rewrite (pairing_value_add s _ _ _ _ Hadd), Hq, pairing_value_mul_r, Hv.
      reflexivity. }
    destruct (IH acc' _ Hl' Hacc' Hq') as [sum [es [q [H1 [H2 [H3 [H4 H5]]]]]]].
    exists sum, (fp12_pow v x :: es), q.
    rewrite Hadd, pairing_value_mul_l, Hv. simpl. rewrite H1, H2. simpl.
    auto.
Qed.

(** Sign/verify correctness on the zipped prefix: for a message of the
    variant's group that shares a position with the key, and an
    invertible [y], [sign] returns and its signature verifies under the
    public key of the secret key. *)
Lemma sign_with_verifies_value (s : scheme) (y : Z) (sk : list Z)
  (message : list point) :
  unit_scalar y ->
  message_of s message ->
  sk <> [] -> message <> [] ->
  exists sig,
    sign_with s y sk message = Ok sig /\
    verify_value s (public_key_of s sk) message sig = Ok true.
Proof.
  intros Hy Hm Hsk Hmsg.
  destruct sk as [|x sk]; [congruence|].
  destruct message as [|m message]; [congruence|].
  inversion Hm as [|? ? Hm0 Hm']; subst.
  assert (Forall (fun '(_, m) => in_message_group s m = true)
            (zip sk message)) as Hz.
  { clear - Hm'. revert sk.
    induction Hm' as [|m' ms H1 H2 IH]; intros [|x' sk]; simpl;
      constructor; auto. }
  destruct (pairing_value_defined s (key_generator s) m
              (key_generator_in_key_group s) Hm0) as [v Hv].
  assert (pairing_value s (key_generator s) (point_mul x m)
          = Ok (fp12_pow v x)) as Hq
    by (now rewrite pairing_value_mul_r, Hv).
  destruct (sum_and_product s (zip sk message) (point_mul x m)
              (fp12_pow v x) Hz)
    as [sum [es [q [H1 [H2 [H3 [H4 H5]]]]]]];
    [now rewrite in_message_group_mul|exact Hq|].
  unfold sign_with, verify_value, public_key_of. simpl.
  unfold zip in *. rewrite H1. simpl.
  eexists. split; [reflexivity|].
  rewrite pairing_value_mul_l, Hv. simpl.
  change (combine (map (fun x0 => point_mul x0 (key_generator s)) sk) message)
    with (zip (map (fun x0 => point_mul x0 (key_generator s)) sk) message).
  rewrite zip_map_l. unfold zip. rewrite H2. simpl. rewrite H3. simpl.
  rewrite pairing_value_mul, H5. simpl.
  rewrite <- (Z.mul_1_r y) at 2.
  rewrite fp12_pow_unit by assumption.
  rewrite fp12_pow_1, fp12_eqb_refl.
  rewrite pairing_value_mul_r, pairing_value_mul_l.
  destruct (pairing_value_defined s (key_generator s) (message_generator s)
              (key_generator_in_key_group s)
              (message_generator_in_message_group s)) as [vg Hvg].
  rewrite Hvg. simpl. now rewrite fp12_eqb_refl.
Qed.

(** *** The point at infinity *)

Lemma unit_scalar_eqb (a : Z) :
  unit_scalar a -> (a mod curve_r =? 0) = false.
Proof. intro H. now apply Z.eqb_neq. Qed.

Lemma unit_scalar_1 : unit_scalar 1.
Proof.
  unfold unit_scalar. pose proof curve_r_gt_1.
  rewrite Z.mod_1_l by assumption. discriminate.
Qed.

Lemma unit_scalar_inv (a : Z) :
  unit_scalar a -> unit_scalar (big_invmodp a curve_r).
Proof.
  intros Ha H. pose proof (big_invmodp_spec a Ha) as Hi.
  rewrite Zmult_mod, H in Hi. simpl in Hi.
  rewrite Zmod_0_l in Hi. discriminate.
Qed.

Lemma unit_scalar_mul (a b : Z) :
  unit_scalar a -> unit_scalar b -> unit_scalar (a * b).
Proof.
  intros Ha Hb H. apply Hb.
  assert ((big_invmodp a curve_r * (a * b)) mod curve_r = 0) as H0.
  { rewrite Zmult_mod, H, Z.mul_0_r. apply Zmod_0_l. }
  rewrite Z.mul_assoc, Zmult_mod, (big_invmodp_spec a Ha), Z.mul_1_l in H0.
  now rewrite Zmod_mod in H0.
Qed.

Lemma unit_key_convert (sk : list Z) (rho : Z) :
  unit_scalar rho -> unit_key sk -> unit_key (map (fun xi => rho * xi) sk).
Proof.
  intros Hr H. unfold unit_key in *. apply Forall_map.
  eapply Forall_impl; [|exact H]. intros x Hx. now apply unit_scalar_mul.
Qed.

Lemma point_isinf_mul (n : Z) (P : point) :
  point_isinf (point_mul n P) = (n mod curve_r =? 0) || point_isinf P.
Proof. destruct P; simpl; [apply ecp_isinf_mul|apply ecp2_isinf_mul]. Qed.

Lemma point_isinf_mul_unit (n : Z) (P : point) :
  unit_scalar n -> point_isinf (point_mul n P) = point_isinf P.
Proof.
  intro H. now rewrite point_isinf_mul, (unit_scalar_eqb n H).
Qed.

Lemma key_generator_not_inf (s : scheme) :
  point_isinf (key_generator s) = false.
Proof.
  destruct s; simpl;
    [apply ecp2_generator_not_inf|apply ecp_generator_not_inf].
Qed.

Lemma message_generator_not_inf (s : scheme) :
  point_isinf (message_generator s) = false.
Proof.
  destruct s; simpl;
    [apply ecp_generator_not_inf|apply ecp2_generator_not_inf].
Qed.

(** Away from the point at infinity, [pair.e] returns the value of the
    pairing; and it returns only there. *)
Lemma pairing_of_proper (s : scheme) (X m : point) :
  point_isinf X = false -> point_isinf m = false ->
  pairing_of s X m = pairing_value s X m.
Proof.
  destruct s, X, m; simpl; intros H1 H2; rewrite ?H1, ?H2; reflexivity.
Qed.

Lemma pairing_of_Ok (s : scheme) (X m : point) (v : Fp12) :
  pairing_of s X m = Ok v ->
  point_isinf X = false /\ point_isinf m = false /\
  pairing_value s X m = Ok v.
Proof.
  destruct s, X as [a|a], m as [b|b]; simpl; try discriminate.
  - destruct (ecp2_isinf a), (ecp_isinf b); simpl; try discriminate; auto.
  - destruct (ecp2_isinf b), (ecp_isinf a); simpl; try discriminate; auto.
Qed.

Lemma comprehension_proper (s : scheme) (l : list (point * point)) :
  Forall (fun '(X, m) => point_isinf X = false /\ point_isinf m = false) l ->
  comprehension (fun '(X, m) => pairing_of s X m) l =
  comprehension (fun '(X, m) => pairing_value s X m) l.
Proof.
  induction 1 as [|[X m] l [HX Hm] _ IH]; simpl; trivial.
  now rewrite (pairing_of_proper s X m HX Hm), IH.
Qed.

Lemma comprehension_Ok_proper (s : scheme) (l : list (point * point))
  (es : list Fp12) :
  comprehension (fun '(X, m) => pairing_of s X m) l = Ok es ->
  Forall (fun '(X, m) => point_isinf X = false /\ point_isinf m = false) l.
Proof.
  revert es. induction l as [|[X m] l IH]; intros es H; simpl in H.
  - constructor.
  - destruct (pairing_of s X m) as [v|] eqn:E; [|discriminate].
    destruct (comprehension _ l) as [es'|] eqn:E'; [|discriminate].
    apply pairing_of_Ok in E. constructor; [tauto|]. now apply (IH es').
Qed.

Lemma verify_with_proper (s : scheme) pk message sig :
  proper_inputs pk message sig ->
  verify_with s pk message sig = verify_value s pk message sig.
Proof.
  destruct sig as [[z y] yhat]. unfold proper_inputs, verify_with, verify_value.
  intros (Hz & Hiz & Hiy & Hih).
  rewrite (comprehension_proper s _ Hz).
  rewrite (pairing_of_proper s yhat z Hih Hiz).
  rewrite (pairing_of_proper s _ y (key_generator_not_inf s) Hiy).
  now rewrite (pairing_of_proper s yhat _ Hih (message_generator_not_inf s)).
Qed.

Lemma verify_with_Ok (s : scheme) pk message sig :
  verify_with s pk message sig = Ok true ->
  proper_inputs pk message sig /\ verify_value s pk message sig = Ok true.
Proof.
  intro H.
  assert (proper_inputs pk message sig) as Hp.
  { destruct sig as [[z y] yhat]. unfold verify_with in H.
    unfold proper_inputs.
    destruct (comprehension _ (zip pk message)) as [es|] eqn:E;
      [|discriminate].
    apply comprehension_Ok_proper in E. simpl in H.
    destruct (reduce gt_mul es) as [q1|]; [|discriminate]. simpl in H.
    destruct (pairing_of s yhat z) as [a|] eqn:Ea; [|discriminate].
    apply pairing_of_Ok in Ea. simpl in H.
    destruct (fp12_eqb q1 a); [|discriminate].
    destruct (pairing_of s (key_generator s) y) as [b|] eqn:Eb;
      [|discriminate].
    apply pairing_of_Ok in Eb. tauto. }
  split; [assumption|]. now rewrite <- (verify_with_proper s _ _ _ Hp).
Qed.

Lemma Forall_zip_map {A B : Type} (P : A * B -> Prop) (f : A -> A)
  (g : B -> B) (l : list A) (l' : list B) :
  (forall a b, P (a, b) -> P (f a, g b)) ->
  Forall P (zip l l') -> Forall P (zip (map f l) (map g l')).
Proof.
  intro H. unfold zip. revert l'.
  induction l as [|a l IH]; intros [|b l'] Hl; simpl; try constructor;
    inversion Hl; subst; auto.
Qed.

(** Scaling the public key and the message by invertible scalars, with
    the signature rescaled to match, keeps an accepted signature
    accepted. *)
Lemma verify_with_rescale (s : scheme) (pk message : list point)
  (sig : signature) (a b psi : Z) :
  verify_with s pk message sig = Ok true ->
  unit_scalar a -> unit_scalar b -> unit_scalar psi ->
  verify_with s (map (point_mul a) pk) (map (point_mul b) message)
    (rescale psi (a * b) sig) = Ok true.
Proof.
  intros H Ha Hb Hpsi. apply verify_with_Ok in H. destruct H as [Hp Hv].
  rewrite verify_with_proper; [now apply verify_value_rescale|].
  destruct sig as [[z y] yhat]. unfold proper_inputs, rescale in *.
  destruct Hp as (Hz & Hiz & Hiy & Hih).
  split; [|split; [|split]].
  - apply Forall_zip_map; [|assumption].
    intros X m [HX Hm]. now rewrite !point_isinf_mul_unit.
  - rewrite point_isinf_mul_unit; [assumption|].
    auto using unit_scalar_mul.
  - rewrite point_isinf_mul_unit; [assumption|now apply unit_scalar_inv].
  - rewrite point_isinf_mul_unit; [assumption|now apply unit_scalar_inv].
Qed.

(** [convert_signature] with [convert_public_key]. *)
Lemma verify_with_convert (s : scheme) pk message sig rho psi :
  verify_with s pk message sig = Ok true ->
  unit_scalar rho -> unit_scalar psi ->
  verify_with s (map (point_mul rho) pk) message (rescale psi rho sig)
  = Ok true.
Proof.
  intros H Hrho Hpsi.
  pose proof (verify_with_rescale s pk message sig rho 1 psi H Hrho
                unit_scalar_1 Hpsi) as H'.
  now rewrite map_point_mul_1, Z.mul_1_r in H'.
Qed.

(** [change_representation]. *)
Lemma verify_with_change (s : scheme) pk message sig mu psi :
  verify_with s pk message sig = Ok true ->
  unit_scalar mu -> unit_scalar psi ->
  verify_with s pk (map (point_mul mu) message) (rescale psi mu sig)
  = Ok true.
Proof.
  intros H Hmu Hpsi.
  pose proof (verify_with_rescale s pk message sig 1 mu psi H
                unit_scalar_1 Hmu Hpsi) as H'.
  now rewrite map_point_mul_1, Z.mul_1_l in H'.
Qed.

(** A signature only verifies when the key and the message share at
    least one position. *)
Lemma verify_with_nonempty (s : scheme) pk message sig :
  verify_with s pk message sig = Ok true -> zip pk message <> [].
Proof.
  destruct sig as [[z y] yhat]. unfold verify_with.
  intros H E. rewrite E in H. discriminate.
Qed.

Lemma proper_message_message_of (s : scheme) (message : list point) :
  proper_message s message -> message_of s message.
Proof.
  unfold proper_message, message_of. intro H.
  eapply Forall_impl; [|exact H]. simpl. tauto.
Qed.

(** Sign/verify correctness away from the point at infinity: for a key
    of invertible scalars, a message of points of the variant's group
    other than the identity, a sum that is not the identity and an
    invertible [y], [sign] returns and [verify] accepts its signature
    under the public key of the secret key. *)
Lemma sign_with_verifies (s : scheme) (y : Z) (sk : list Z)
  (message : list point) :
  unit_scalar y ->
  unit_key sk ->
  proper_message s message ->
  sk <> [] -> message <> [] ->
  signable sk message ->
  exists sig,
    sign_with s y sk message = Ok sig /\
    verify_with s (public_key_of s sk) message sig = Ok true.
Proof.
  intros Hy Hsk Hm Hne Hne' (sum & Hsum & Hinf).
  destruct (sign_with_verifies_value s y sk message Hy
              (proper_message_message_of s message Hm) Hne Hne')
    as (sig & Hs & Hv).
  exists sig. split; [assumption|].
  rewrite verify_with_proper; [assumption|].
  unfold sign_with in Hs. unfold signed_sum in Hsum. rewrite Hsum in Hs.
  simpl in Hs. injection Hs as <-. unfold proper_inputs.
  split; [|split; [|split]].
  - unfold public_key_of, zip. clear - Hsk Hm.
    revert message Hm. induction Hsk as [|x sk Hx _ IH];
      intros [|m message] Hm; simpl; constructor.
    + inversion Hm as [|? ? [_ Him] _]; subst.
      rewrite point_isinf_mul_unit by assumption.
      split; [apply key_generator_not_inf|assumption].
    + apply IH. now inversion Hm.
  - now rewrite point_isinf_mul_unit.
  - rewrite point_isinf_mul_unit by (now apply unit_scalar_inv).
    apply message_generator_not_inf.
  - rewrite point_isinf_mul_unit by (now apply unit_scalar_inv).
    apply key_generator_not_inf.
Qed.

Lemma point_add_mul (n : Z) (P Q : point) :
  point_add (point_mul n P) (point_mul n Q)
  = rmap (point_mul n) (point_add P Q).
Proof.
  destruct P, Q; simpl; trivial;
    now rewrite ?ecp_mul_add, ?ecp2_mul_add.
Qed.

Lemma reduce_from_scaled (rho : Z) (l : list (Z * point)) (acc : point) :
  reduce_from point_add (point_mul rho acc)
    (map (fun '(x, m) => point_mul (rho * x) m) l)
  = rmap (point_mul rho)
      (reduce_from point_add acc
         (map (fun '(x, m) => point_mul x m) l)).
Proof.
  revert acc. induction l as [|[x m] l IH]; intro acc; simpl; trivial.
  rewrite <- point_mul_mul, point_add_mul.
  destruct (point_add acc (point_mul x m)); simpl; [apply IH|trivial].
Qed.

(** The sum signed with the converted key is the sum signed with the
    key, scaled. *)
Lemma signed_sum_convert (sk : list Z) (message : list point) (rho : Z) :
  signed_sum (map (fun xi => rho * xi) sk) message
  = rmap (point_mul rho) (signed_sum sk message).
Proof.
  unfold signed_sum. rewrite zip_map_l, map_map.
  destruct (zip sk message) as [|[x m] l]; simpl; trivial.
  rewrite <- point_mul_mul.
  rewrite <- (reduce_from_scaled rho l (point_mul x m)).
  f_equal. apply map_ext. now intros [x' m'].
Qed.

Lemma signable_convert (sk : list Z) (message : list point) (rho : Z) :
  unit_scalar rho -> signable sk message ->
  signable (map (fun xi => rho * xi) sk) message.
Proof.
  intros Hr (sum & Hs & Hi). exists (point_mul rho sum).
  rewrite signed_sum_convert, Hs. simpl.
  split; [reflexivity|]. now rewrite point_isinf_mul_unit.
Qed.

End Signatures.

(* ================================================================= *)
(** ** Key generation *)

Section KeyGen.
Context {L : PairingLib}.

Lemma take_tape_S (n : nat) (t : tape) :
  take_tape (S n) t = t 0%nat :: take_tape n (tl_tape t).
Proof.
  unfold take_tape. simpl. f_equal.
  rewrite <- seq_shift, map_map. reflexivity.
Qed.

Lemma length_take_tape (n : nat) (t : tape) : length (take_tape n t) = n.
Proof. unfold take_tape. now rewrite length_map, length_seq. Qed.

Lemma primary_key_gen_loop (n : nat) (sk : list Z) (pk : list point)
  (t : tape) :
  MercurialSignatureScheme.key_gen_loop n sk pk t =
  Ok ((pk ++ public_key_of Primary (take_tape n t), sk ++ take_tape n t),
      drop_tape n t).
Proof.
  revert sk pk t. induction n as [|n IH]; intros sk pk t.
  - simpl. now rewrite !app_nil_r.
  - rewrite take_tape_S. cbn [MercurialSignatureScheme.key_gen_loop
      MercurialSignatureDual.key_gen_loop].
    unfold bind, M_monad, MercurialSignatureScheme.random_zp,
      MercurialSignatureDual.random_zp, MercurialSignatureScheme.random_zp.
    rewrite IH. unfold public_key_of. simpl. now rewrite <- !app_assoc.
Qed.

Lemma dual_key_gen_loop (n : nat) (sk : list Z) (pk : list point)
  (t : tape) :
  MercurialSignatureDual.key_gen_loop n sk pk t =
  Ok ((pk ++ public_key_of Dual (take_tape n t), sk ++ take_tape n t),
      drop_tape n t).
Proof.
  revert sk pk t. induction n as [|n IH]; intros sk pk t.
  - simpl. now rewrite !app_nil_r.
  - rewrite take_tape_S. cbn [MercurialSignatureScheme.key_gen_loop
      MercurialSignatureDual.key_gen_loop].
    unfold bind, M_monad, MercurialSignatureScheme.random_zp,
      MercurialSignatureDual.random_zp, MercurialSignatureScheme.random_zp.
    rewrite IH. unfold public_key_of. simpl. now rewrite <- !app_assoc.
Qed.

(** [key_gen] draws [ell] scalars and returns them with their public
    key. *)
Lemma scheme_key_gen_eq (s : scheme) (ell : Z) (t : tape) :
  scheme_key_gen s ell t =
  Ok ((public_key_of s (take_tape (Z.to_nat ell) t),
       take_tape (Z.to_nat ell) t),
      drop_tape (Z.to_nat ell) t).
Proof.
  destruct s; simpl.
  - unfold MercurialSignatureScheme.key_gen.
    now rewrite primary_key_gen_loop.
  - unfold MercurialSignatureDual.key_gen.
    now rewrite dual_key_gen_loop.
Qed.

Lemma scheme_key_gen_Ok (s : scheme) (ell : Z) (t t' : tape) pk sk :
  scheme_key_gen s ell t = Ok ((pk, sk), t') ->
  pk = public_key_of s sk /\ length sk = Z.to_nat ell.
Proof.
  rewrite scheme_key_gen_eq. intro H. inversion H; subst.
  split; [reflexivity|apply length_take_tape].
Qed.

End KeyGen.

(* ================================================================= *)
(** ** Correctness of the signature schemes *)

Section SchemeCorrectness.
Context {L : PairingLib}.

Lemma key_pair_nonempty (s : scheme) (ell : Z) (t0 t0' : tape) pk sk
  (message : list point) :
  1 <= ell ->
  scheme_key_gen s ell t0 = Ok ((pk, sk), t0') ->
  len message = ell ->
  pk = public_key_of s sk /\ sk <> [] /\ message <> [].
Proof.
  intros Hell Hkg Hlen.
  destruct (scheme_key_gen_Ok s ell t0 t0' pk sk Hkg) as [Hpk Hsk].
  split; [assumption|]. unfold len in Hlen.
  split; intro E; subst; simpl in *; lia.
Qed.

(** C3 (P1, sign/verify correctness), as the code has it.  For either
    variant [s], a key length [ell >= 1], a key pair returned by
    [key_gen(ell)] whose scalars are not multiples of [r], and a message
    of [ell] points of the variant's message group, none of them the
    point at infinity, for which the sum [sign] forms is not the point
    at infinity: whenever the scalar [y] that [sign] draws is
    invertible, [sign] returns a signature and [verify] accepts it under
    the public key. *)
Theorem sign_verify_correct (s : scheme) (ell : Z) (t0 t0' : tape)
  (pk : list point) (sk : list Z) (message : list point) (t : tape) :
  1 <= ell ->
  scheme_key_gen s ell t0 = Ok ((pk, sk), t0') ->
  unit_key sk ->
  len message = ell ->
  proper_message s message ->
  signable sk message ->
  unit_scalar (t 0%nat) ->
  exists sig t',
    scheme_sign s sk message t = Ok (sig, t') /\
    scheme_verify s pk message sig = Ok true.
Proof.
  intros Hell Hkg Hu Hlen Hm Hsum Hy.
  destruct (key_pair_nonempty s ell t0 t0' pk sk message Hell Hkg Hlen)
    as [-> [Hsk Hmsg]].
  destruct (sign_with_verifies s (t 0%nat) sk message Hy Hu Hm Hsk Hmsg Hsum)
    as [sig [Hs Hv]].
  exists sig, (tl_tape t).
  rewrite scheme_sign_with, Hs, scheme_verify_with. auto.
Qed.

(** C4 (P2, conversion correctness), as the code has it.  Under the
    conditions of C3 on the key pair and the message, for every [rho]
    that is not a multiple of [r]: when the [y] drawn by [sign] and the
    [psi] drawn by [convert_signature] are invertible, the converted
    signature verifies under the converted public key. *)
Theorem conversion_correct (s : scheme) (ell : Z) (t0 t0' : tape)
  (pk : list point) (sk : list Z) (message : list point) (rho : Z)
  (t u : tape) :
  1 <= ell ->
  scheme_key_gen s ell t0 = Ok ((pk, sk), t0') ->
  unit_key sk ->
  len message = ell ->
  proper_message s message ->
  signable sk message ->
  unit_scalar rho ->
  unit_scalar (t 0%nat) ->
  unit_scalar (u 0%nat) ->
  exists sig t' sig' u',
    scheme_sign s sk message t = Ok (sig, t') /\
    scheme_convert_signature s pk message sig rho u = Ok (sig', u') /\
    scheme_verify s (scheme_convert_public_key s pk rho) message sig'
    = Ok true.
Proof.
  intros Hell Hkg Hu Hlen Hm Hsum Hrho Hy Hpsi.
  destruct (key_pair_nonempty s ell t0 t0' pk sk message Hell Hkg Hlen)
    as [-> [Hsk Hmsg]].
  destruct (sign_with_verifies s (t 0%nat) sk message Hy Hu Hm Hsk Hmsg Hsum)
    as [sig [Hs Hv]].
  exists sig, (tl_tape t), (rescale (u 0%nat) rho sig), (tl_tape u).
  rewrite scheme_sign_with, Hs, scheme_convert_signature_eq,
    scheme_verify_with, scheme_convert_public_key_eq.
  repeat split. now apply verify_with_convert.
Qed.

(** C5 (P3, change of representation), as the code has it.  Under the
    conditions of C3 on the key pair and the message, for every [mu]
    that is not a multiple of [r]: when the [y] drawn by [sign] and the
    [psi] drawn by [change_representation] are invertible, the new
    message and signature verify under the unchanged public key. *)
Theorem change_representation_correct (s : scheme) (ell : Z)
  (t0 t0' : tape) (pk : list point) (sk : list Z) (message : list point)
  (mu : Z) (t u : tape) :
  1 <= ell ->
  scheme_key_gen s ell t0 = Ok ((pk, sk), t0') ->
  unit_key sk ->
  len message = ell ->
  proper_message s message ->
  signable sk message ->
  unit_scalar mu ->
  unit_scalar (t 0%nat) ->
  unit_scalar (u 0%nat) ->
  exists sig t' message' sig' u',
    scheme_sign s sk message t = Ok (sig, t') /\
    scheme_change_representation s pk message sig mu u
    = Ok ((message', sig'), u') /\
    scheme_verify s pk message' sig' = Ok true.
Proof.
  intros Hell Hkg Hu Hlen Hm Hsum Hmu Hy Hpsi.
  destruct (key_pair_nonempty s ell t0 t0' pk sk message Hell Hkg Hlen)
    as [-> [Hsk Hmsg]].
  destruct (sign_with_verifies s (t 0%nat) sk message Hy Hu Hm Hsk Hmsg Hsum)
    as [sig [Hs Hv]].
  exists sig, (tl_tape t), (map (point_mul mu) message),
    (rescale (u 0%nat) mu sig), (tl_tape u).
  rewrite scheme_sign_with, Hs, scheme_change_representation_eq,
    scheme_verify_with.
  repeat split. now apply verify_with_change.
Qed.

(** C10 (the conversions do not read the key or the message).  In both
    variants [convert_signature] returns the same result whatever public
    key and message it is given, and [change_representation] whatever
    public key. *)
Theorem conversions_ignore_key_and_message (s : scheme)
  (pk pk' message message' : list point) (sig : signature) (k : Z)
  (t : tape) :
  scheme_convert_signature s pk message sig k t =
  scheme_convert_signature s pk' message' sig k t /\
  scheme_change_representation s pk message sig k t =
  scheme_change_representation s pk' message sig k t.
Proof.
  now rewrite !scheme_convert_signature_eq,
    !scheme_change_representation_eq.
Qed.

(** [sign] only reads the positions the key and the message share. *)
Lemma sign_with_firstn (s : scheme) (y : Z) (sk : list Z)
  (message : list point) :
  sign_with s y sk message =
  sign_with s y
    (firstn (Nat.min (length sk) (length message)) sk)
    (firstn (Nat.min (length sk) (length message)) message).
Proof. unfold sign_with. now rewrite <- zip_firstn. Qed.

Lemma reduce_from_message_group (s : scheme) (l : list (Z * point))
  (acc : point) :
  Forall (fun '(_, m) => in_message_group s m = true) l ->
  in_message_group s acc = true ->
  exists sum,
    reduce_from point_add acc (map (fun '(xi, mi) => point_mul xi mi) l)
    = Ok sum.
Proof.
  intro H. revert acc. induction H as [|[x m] l Hm _ IH]; intros acc Hacc.
  - exists acc. reflexivity.
  - simpl.
    destruct (point_add_message_group s acc (point_mul x m) Hacc)
      as [acc' [-> Hacc']]; [now rewrite in_message_group_mul|].
    simpl. now apply IH.
Qed.

(** On points of one curve, [sign] fails only for want of a shared
    position. *)
Lemma sign_with_defined (s : scheme) (y : Z) (sk : list Z)
  (message : list point) :
  message_of s message ->
  if (Nat.min (length sk) (length message) =? 0)%nat
  then sign_with s y sk message = Raise TypeError
  else exists sig, sign_with s y sk message = Ok sig.
Proof.
  intro Hm. unfold sign_with, zip.
  destruct sk as [|x sk]; [reflexivity|].
  destruct message as [|m message]; [reflexivity|].
  simpl Nat.min. simpl Nat.eqb. inversion Hm as [|? ? Hm0 Hm']; subst.
  assert (Forall (fun '(_, m) => in_message_group s m = true)
            (combine sk message)) as Hz.
  { clear - Hm'. revert sk.
    induction Hm' as [|m' ms H1 H2 IH]; intros [|x' sk]; simpl;
      constructor; auto. }
  destruct (reduce_from_message_group s _ (point_mul x m) Hz) as [sum Hs];
    [now rewrite in_message_group_mul|].
  simpl. rewrite Hs. simpl. eauto.
Qed.

(** C8, as the code has it.  [sign] does not compare the lengths of the
    secret key and the message: it pairs them by [zip].  On lists of
    different lengths, the message made of points of the variant's
    message curve, it does what it does on their common prefixes: when
    the shorter list is not empty it returns a signature, and when it is
    empty it raises [TypeError].  [convert_signature] and
    [change_representation] return for every public key and message,
    whatever their lengths. *)
Theorem length_mismatch_is_truncated (s : scheme) (sk : list Z)
  (pk message : list point) (sig : signature) (k : Z) (t : tape) :
  length sk <> length message ->
  message_of s message ->
  scheme_sign s sk message t =
  scheme_sign s
    (firstn (Nat.min (length sk) (length message)) sk)
    (firstn (Nat.min (length sk) (length message)) message) t /\
  (if (Nat.min (length sk) (length message) =? 0)%nat
   then scheme_sign s sk message t = Raise TypeError
   else exists sig', scheme_sign s sk message t = Ok (sig', tl_tape t)) /\
  scheme_convert_signature s pk message sig k t =
  Ok (rescale (t 0%nat) k sig, tl_tape t) /\
  scheme_change_representation s pk message sig k t =
  Ok ((map (point_mul k) message, rescale (t 0%nat) k sig), tl_tape t).
Proof.
  intros _ Hm. rewrite !scheme_sign_with, <- sign_with_firstn.
  rewrite scheme_convert_signature_eq, scheme_change_representation_eq.
  split; [reflexivity|]. split; [|auto].
  pose proof (sign_with_defined s (t 0%nat) sk message Hm) as H.
  destruct (Nat.min (length sk) (length message) =? 0)%nat.
  - now rewrite H.
  - destruct H as [sig' ->]. eauto.
Qed.

End SchemeCorrectness.

(* ================================================================= *)
(** ** The signature schemes on concrete inputs *)

Lemma sign_verify_correct_witness :
  exists sig t',
    scheme_sign (L := Z11.lib) Primary [2; 3] [Z11.g1 4; Z11.g1 9]
      Z11.draws = Ok (sig, t') /\
    scheme_verify Primary [Z11.g2 4; Z11.g2 6] [Z11.g1 4; Z11.g1 9] sig
    = Ok true.
Proof.
  apply (sign_verify_correct (L := Z11.lib) Primary 2 Z11.draws
           (drop_tape 2 Z11.draws) [Z11.g2 4; Z11.g2 6] [2; 3]
           [Z11.g1 4; Z11.g1 9] Z11.draws).
  - lia.
  - reflexivity.
  - repeat constructor; vm_compute; discriminate.
  - reflexivity.
  - repeat constructor.
  - exists (Z11.g1 2). split; reflexivity.
  - vm_compute; discriminate.
Defined.

Lemma conversion_correct_witness :
  exists sig t' sig' u',
    scheme_sign (L := Z11.lib) Dual [2; 3] [Z11.g2 4; Z11.g2 9]
      Z11.draws = Ok (sig, t') /\
    scheme_convert_signature Dual [Z11.g1 2; Z11.g1 3]
      [Z11.g2 4; Z11.g2 9] sig 8 (tl_tape Z11.draws) = Ok (sig', u') /\
    scheme_verify Dual
      (scheme_convert_public_key Dual [Z11.g1 2; Z11.g1 3] 8)
      [Z11.g2 4; Z11.g2 9] sig' = Ok true.
Proof.
  apply (conversion_correct (L := Z11.lib) Dual 2 Z11.draws
           (drop_tape 2 Z11.draws) [Z11.g1 2; Z11.g1 3] [2; 3]
           [Z11.g2 4; Z11.g2 9] 8 Z11.draws (tl_tape Z11.draws)).
  - lia.
  - reflexivity.
  - repeat constructor; vm_compute; discriminate.
  - reflexivity.
  - repeat constructor.
  - exists (Z11.g2 2). split; reflexivity.
  - vm_compute; discriminate.
  - vm_compute; discriminate.
  - vm_compute; discriminate.
Defined.

Lemma change_representation_correct_witness :
  exists sig t' message' sig' u',
    scheme_sign (L := Z11.lib) Primary [2; 3; 5]
      [Z11.g1 4; Z11.g1 9; Z11.g1 1] Z11.draws = Ok (sig, t') /\
    scheme_change_representation Primary
      [Z11.g2 4; Z11.g2 6; Z11.g2 10]
      [Z11.g1 4; Z11.g1 9; Z11.g1 1] sig 7 (tl_tape Z11.draws)
    = Ok ((message', sig'), u') /\
    scheme_verify Primary [Z11.g2 4; Z11.g2 6; Z11.g2 10] message' sig'
    = Ok true.
Proof.
  apply (change_representation_correct (L := Z11.lib) Primary 3 Z11.draws
           (drop_tape 3 Z11.draws) [Z11.g2 4; Z11.g2 6; Z11.g2 10]
           [2; 3; 5] [Z11.g1 4; Z11.g1 9; Z11.g1 1] 7 Z11.draws
           (tl_tape Z11.draws)).
  - lia.
  - reflexivity.
  - repeat constructor; vm_compute; discriminate.
  - reflexivity.
  - repeat constructor.
  - exists (Z11.g1 7). split; reflexivity.
  - vm_compute; discriminate.
  - vm_compute; discriminate.
  - vm_compute; discriminate.
Defined.

Lemma length_mismatch_is_truncated_witness :
  scheme_sign (L := Z11.lib) Primary [2; 3] [Z11.g1 4] Z11.draws =
  scheme_sign Primary
    (firstn (Nat.min (length [2; 3]) (length [Z11.g1 4])) [2; 3])
    (firstn (Nat.min (length [2; 3]) (length [Z11.g1 4])) [Z11.g1 4])
    Z11.draws /\
  (if (Nat.min (length [2; 3]) (length [Z11.g1 4]) =? 0)%nat
   then scheme_sign Primary [2; 3] [Z11.g1 4] Z11.draws = Raise TypeError
   else exists sig',
       scheme_sign Primary [2; 3] [Z11.g1 4] Z11.draws
       = Ok (sig', tl_tape Z11.draws)) /\
  scheme_convert_signature Primary [Z11.g2 4; Z11.g2 6] [Z11.g1 4]
    (Z11.g1 5, Z11.g1 6, Z11.g2 1) 3 Z11.draws =
  Ok (rescale (Z11.draws 0%nat) 3 (Z11.g1 5, Z11.g1 6, Z11.g2 1),
      tl_tape Z11.draws) /\
  scheme_change_representation Primary [Z11.g2 4; Z11.g2 6] [Z11.g1 4]
    (Z11.g1 5, Z11.g1 6, Z11.g2 1) 3 Z11.draws =
  Ok ((map (point_mul 3) [Z11.g1 4],
       rescale (Z11.draws 0%nat) 3 (Z11.g1 5, Z11.g1 6, Z11.g2 1)),
      tl_tape Z11.draws).
Proof.
  apply (length_mismatch_is_truncated (L := Z11.lib) Primary [2; 3]
           [Z11.g2 4; Z11.g2 6] [Z11.g1 4]
           (Z11.g1 5, Z11.g1 6, Z11.g2 1) 3 Z11.draws).
  - discriminate.
  - repeat constructor.
Defined.

(** C3 as stated fails where [verify] is led to pair the point at
    infinity: on a message of the group with the point at infinity among
    its points; on a message of other points for which the sum
    [2 * M[0] + 3 * M[1]] that [sign] forms is the point at infinity;
    and on the key pair [key_gen] returns when it draws a zero scalar.
    In each, [sign] returns and [verify] raises [TypeError]. *)
Lemma sign_verify_raises_at_infinity :
  (scheme_key_gen (L := Z11.lib) Primary 2 Z11.draws
   = Ok (([Z11.g2 4; Z11.g2 6], [2; 3]), drop_tape 2 Z11.draws) /\
   message_of Primary [Z11.g1 0; Z11.g1 9] /\
   scheme_sign Primary [2; 3] [Z11.g1 0; Z11.g1 9] Z11.draws
   = Ok ((Z11.g1 10, Z11.g1 6, Z11.g2 1), tl_tape Z11.draws) /\
   scheme_verify Primary [Z11.g2 4; Z11.g2 6] [Z11.g1 0; Z11.g1 9]
     (Z11.g1 10, Z11.g1 6, Z11.g2 1) = Raise TypeError) /\
  (message_of Primary [Z11.g1 3; Z11.g1 9] /\
   scheme_sign Primary [2; 3] [Z11.g1 3; Z11.g1 9] Z11.draws
   = Ok ((Z11.g1 0, Z11.g1 6, Z11.g2 1), tl_tape Z11.draws) /\
   scheme_verify Primary [Z11.g2 4; Z11.g2 6] [Z11.g1 3; Z11.g1 9]
     (Z11.g1 0, Z11.g1 6, Z11.g2 1) = Raise TypeError) /\
  (scheme_key_gen (L := Z11.lib) Primary 2 Z11.zero_first
   = Ok (([Z11.g2 0; Z11.g2 6], [0; 3]), drop_tape 2 Z11.zero_first) /\
   scheme_sign Primary [0; 3] [Z11.g1 4; Z11.g1 9] Z11.draws
   = Ok ((Z11.g1 10, Z11.g1 6, Z11.g2 1), tl_tape Z11.draws) /\
   scheme_verify Primary [Z11.g2 0; Z11.g2 6] [Z11.g1 4; Z11.g1 9]
     (Z11.g1 10, Z11.g1 6, Z11.g2 1) = Raise TypeError).
Proof.
  repeat split; try reflexivity; repeat constructor.
Qed.

(** C4 as stated fails in the same places: on a message with the point
    at infinity among its points, and when [sign] draws a zero [y], the
    converted signature does not verify under the converted key, for a
    [rho] and a [psi] that are not zero: [verify] raises [TypeError]. *)
Lemma conversion_raises_at_infinity :
  (scheme_key_gen (L := Z11.lib) Primary 2 Z11.draws
   = Ok (([Z11.g2 4; Z11.g2 6], [2; 3]), drop_tape 2 Z11.draws) /\
   scheme_sign Primary [2; 3] [Z11.g1 0; Z11.g1 9] Z11.draws
   = Ok ((Z11.g1 10, Z11.g1 6, Z11.g2 1), tl_tape Z11.draws) /\
   scheme_convert_signature Primary [Z11.g2 4; Z11.g2 6]
     [Z11.g1 0; Z11.g1 9] (Z11.g1 10, Z11.g1 6, Z11.g2 1) 8
     (tl_tape Z11.draws)
   = Ok ((Z11.g1 9, Z11.g1 2, Z11.g2 4), drop_tape 2 Z11.draws) /\
   scheme_verify Primary
     (scheme_convert_public_key Primary [Z11.g2 4; Z11.g2 6] 8)
     [Z11.g1 0; Z11.g1 9] (Z11.g1 9, Z11.g1 2, Z11.g2 4)
   = Raise TypeError) /\
  (Z11.zero_first 0%nat = 0 /\
   match
     (sig <- scheme_sign Primary [2; 3] [Z11.g1 4; Z11.g1 9] ;;
      sig' <- scheme_convert_signature Primary [Z11.g2 4; Z11.g2 6]
                [Z11.g1 4; Z11.g1 9] sig 8 ;;
      liftR (scheme_verify Primary
               (scheme_convert_public_key Primary [Z11.g2 4; Z11.g2 6] 8)
               [Z11.g1 4; Z11.g1 9] sig')) Z11.zero_first
   with
   | Raise TypeError => True
   | _ => False
   end).
Proof.
  repeat split; reflexivity.
Qed.

(** C5 as stated fails in the same places: on a message with the point
    at infinity among its points, and when [sign] draws a zero [y], the
    new message and signature do not verify, for a [mu] and a [psi] that
    are not zero: [verify] raises [TypeError]. *)
Lemma change_representation_raises_at_infinity :
  (scheme_key_gen (L := Z11.lib) Primary 2 Z11.draws
   = Ok (([Z11.g2 4; Z11.g2 6], [2; 3]), drop_tape 2 Z11.draws) /\
   scheme_sign Primary [2; 3] [Z11.g1 0; Z11.g1 9] Z11.draws
   = Ok ((Z11.g1 10, Z11.g1 6, Z11.g2 1), tl_tape Z11.draws) /\
   scheme_change_representation Primary [Z11.g2 4; Z11.g2 6]
     [Z11.g1 0; Z11.g1 9] (Z11.g1 10, Z11.g1 6, Z11.g2 1) 7
     (tl_tape Z11.draws)
   = Ok (([Z11.g1 0; Z11.g1 8], (Z11.g1 1, Z11.g1 2, Z11.g2 4)),
         drop_tape 2 Z11.draws) /\
   scheme_verify Primary [Z11.g2 4; Z11.g2 6] [Z11.g1 0; Z11.g1 8]
     (Z11.g1 1, Z11.g1 2, Z11.g2 4) = Raise TypeError) /\
  (Z11.zero_first 0%nat = 0 /\
   match
     (sig <- scheme_sign Primary [2; 3] [Z11.g1 4; Z11.g1 9] ;;
      '(message', sig') <-
        scheme_change_representation Primary [Z11.g2 4; Z11.g2 6]
          [Z11.g1 4; Z11.g1 9] sig 7 ;;
      liftR (scheme_verify Primary [Z11.g2 4; Z11.g2 6] message' sig'))
       Z11.zero_first
   with
   | Raise TypeError => True
   | _ => False
   end).
Proof.
  repeat split; reflexivity.
Qed.

(** C8 as stated fails: [sign] with a secret key of two scalars and a
    message of one point raises nothing; it returns the signature of
    the one-point prefix.  [convert_signature] and
    [change_representation], given a public key of two points and a
    message of one, return as well. *)
Lemma sign_length_mismatch_returns :
  len [2; 3] <> len [Z11.g1 4] /\
  MercurialSignatureScheme.sign (L := Z11.lib) [2; 3] [Z11.g1 4] Z11.draws
  = Ok ((Z11.g1 5, Z11.g1 6, Z11.g2 1), tl_tape Z11.draws) /\
  MercurialSignatureScheme.sign (L := Z11.lib) [2] [Z11.g1 4] Z11.draws
  = Ok ((Z11.g1 5, Z11.g1 6, Z11.g2 1), tl_tape Z11.draws) /\
  MercurialSignatureScheme.convert_signature (L := Z11.lib)
    [Z11.g2 4; Z11.g2 6] [Z11.g1 4] (Z11.g1 5, Z11.g1 6, Z11.g2 1) 3
    Z11.draws
  = Ok ((Z11.g1 8, Z11.g1 3, Z11.g2 6), tl_tape Z11.draws) /\
  MercurialSignatureScheme.change_representation (L := Z11.lib)
    [Z11.g2 4; Z11.g2 6] [Z11.g1 4] (Z11.g1 5, Z11.g1 6, Z11.g2 1) 3
    Z11.draws
  = Ok (([Z11.g1 1], (Z11.g1 8, Z11.g1 3, Z11.g2 6)), tl_tape Z11.draws).
Proof.
  split; [discriminate|]. repeat split; reflexivity.
Qed.

(* ================================================================= *)
(** ** Running code in the monad *)

Section Stepping.


Lemma bind_M {A B : Type} (c : M A) (a : A) (k : A -> M B) (t t' : tape) :
  c t = Ok (a, t') -> bind c k t = k a t'.
Proof. intro H. simpl. now rewrite H. Qed.

Lemma bind_assert {B : Type} (b : bool) (k : unit -> M B) (t : tape) :
  b = true -> bind (liftR (assert b)) k t = k tt t.
Proof. intro H. subst b. reflexivity. Qed.

End Stepping.

(* ================================================================= *)
(** ** Chain verification, link by link *)

Section VerifyChain.
Context {L : PairingLib}.

Import DelegatableAnonCredScheme.

Lemma of_nat_succ (i : nat) : Z.of_nat i + 1 = Z.of_nat (S i).
Proof. lia. Qed.

Lemma verify_chain_loop_links (self : t) (indices : list nat)
  (nym_list : list (list point)) (sig_list : list signature) :
  verify_chain_loop self (map Z.of_nat indices) nym_list sig_list = Ok true
  <-> Forall (link self nym_list sig_list) indices.
Proof.
  induction indices as [|i indices IH]; simpl.
  - split; auto.
  - rewrite of_nat_succ. split.
    + intro H.
      destruct (getitem nym_list (Z.of_nat i)) as [nym_i|] eqn:E1;
        [|discriminate].
      destruct (getitem nym_list (Z.of_nat (S i))) as [nym_i1|] eqn:E2;
        [|discriminate].
      destruct (getitem sig_list (Z.of_nat (S i))) as [sig_i1|] eqn:E3;
        [|discriminate].
      destruct (scheme_verify _ nym_i nym_i1 sig_i1) as [[|]|] eqn:E4;
        simpl in H; try discriminate.
      apply getitem_Ok in E1, E2, E3; try lia.
      rewrite Nat2Z.id in E1, E2, E3.
      constructor; [|now apply IH].
      exists nym_i, nym_i1, sig_i1. auto.
    + intro H. inversion H as [|? ? Hl Hr]; subst.
      destruct Hl as [nym_i [nym_i1 [sig_i1 [E1 [E2 [E3 E4]]]]]].
      rewrite (getitem_nat _ _ _ E1), (getitem_nat _ _ _ E2),
        (getitem_nat _ _ _ E3), E4.
      simpl. now apply IH.
Qed.

Lemma len_pred_range {A : Type} (l : list A) :
  l <> [] -> range (len l - 1) = map Z.of_nat (seq 0 (length l - 1)).
Proof.
  intro H. unfold len.
  replace (Z.of_nat (length l) - 1) with (Z.of_nat (length l - 1)).
  - apply range_seq.
  - destruct l; [congruence|]. simpl length. lia.
Qed.

(** [verify_chain] returns true exactly on the chains all of whose
    links verify. *)
Lemma verify_chain_iff (self : t) (chain : cred_chain) :
  verify_chain self chain = Ok true <-> links_verify self chain.
Proof.
  destruct chain as [nym_list sig_list].
  unfold verify_chain, links_verify, root_link. simpl fst. simpl snd.
  split.
  - intro H.
    destruct (len nym_list =? len sig_list) eqn:El; [|discriminate].
    apply Z.eqb_eq in El. unfold len in El. apply Nat2Z.inj in El.
    simpl in H.
    destruct (getitem nym_list 0) as [nym_0|] eqn:E1; [|discriminate].
    destruct (getitem sig_list 0) as [sig_0|] eqn:E2; [|discriminate].
    destruct (scheme_verify _ _ nym_0 sig_0) as [[|]|] eqn:E3;
      simpl in H; try discriminate.
    apply getitem_Ok in E1, E2; try lia. simpl in E1, E2.
    split; [assumption|]. split; [eauto|].
    rewrite len_pred_range in H by (intro; subst; discriminate).
    apply verify_chain_loop_links in H.
    intros i Hi. rewrite Forall_forall in H. apply H.
    apply in_seq. lia.
  - intros [El [[nym_0 [sig_0 [E1 [E2 E3]]]] Hl]].
    assert ((len nym_list =? len sig_list) = true) as El'
      by (unfold len; rewrite El; apply Z.eqb_refl).
    rewrite El'. simpl.
    pose proof (getitem_nat nym_list 0 _ E1) as E1'.
    pose proof (getitem_nat sig_list 0 _ E2) as E2'.
    simpl in E1', E2'. rewrite E1', E2', E3. simpl.
    rewrite len_pred_range by (intro; subst; discriminate).
    apply verify_chain_loop_links. apply Forall_forall.
    intros i Hi. apply in_seq in Hi. apply Hl. lia.
Qed.

End VerifyChain.

(* ================================================================= *)
(** ** Issuing the next credential *)

Section IssueNext.
Context {L : PairingLib}.

Import DelegatableAnonCredScheme.




End IssueNext.

Section IssueNextCorrect.
Context {L : PairingLib}.

Import DelegatableAnonCredScheme.

Lemma zip_nonempty_r {A B : Type} (l : list A) (l' : list B) :
  zip l l' <> [] -> l' <> [].
Proof. intros H E. subst. destruct l; simpl in H; congruence. Qed.





End IssueNextCorrect.

(* ================================================================= *)
(** ** The credential scheme *)

Section Credentials.
Context {L : PairingLib}.

Import DelegatableAnonCredScheme.

Lemma parity_of_nat (j : nat) : (Z.of_nat j mod 2 =? 0) = Nat.even j.
Proof.
  assert ((Z.of_nat j mod 2 =? 0) = Nat.even j /\
          (Z.of_nat (S j) mod 2 =? 0) = Nat.even (S j)) as [H _];
    [|exact H].
  induction j as [|j [IH1 IH2]].
  - split; reflexivity.
  - split; [assumption|].
    replace (Z.of_nat (S (S j))) with (Z.of_nat j + 1 * 2) by lia.
    now rewrite Z_mod_plus_full.
Qed.

(** What [__init__] stores. *)
Lemma init_Ok (ell : Z) (t0 t0' : tape) (self : t) :
  init ell t0 = Ok (self, t0') ->
  even_issuer_scheme self = Dual /\
  odd_issuer_scheme self = Primary /\
  key_length self = ell /\
  initial_pk self = public_key_of Dual (initial_sk self) /\
  length (initial_sk self) = Z.to_nat ell /\
  initial_nym self = PyTuple (PyPoints (initial_pk self)) PyNone.
Proof.
  unfold init. rewrite (bind_M _ _ _ _ _ (scheme_key_gen_eq Dual ell t0)).
  cbv beta iota. simpl. intro H. injection H as <- _. simpl.
  repeat split. apply length_take_tape.
Qed.

Lemma issuer_scheme_at_init (ell : Z) (t0 t0' : tape) (self : t) (i : nat) :
  init ell t0 = Ok (self, t0') ->
  issuer_scheme_at self (Z.of_nat i) = variant_at i.
Proof.
  intro H. apply init_Ok in H. destruct H as (He & Ho & _).
  unfold issuer_scheme_at, variant_at.
  now rewrite parity_of_nat, He, Ho.
Qed.


(** A public key of one variant is a message of the other. *)
Lemma public_key_is_message (s s' : scheme) (sk : list Z) :
  s <> s' -> message_of s' (public_key_of s sk).
Proof.
  intro H. unfold message_of, public_key_of. apply Forall_forall.
  intros P HP. apply in_map_iff in HP. destruct HP as [x [<- _]].
  destruct s, s'; try congruence; reflexivity.
Qed.






Lemma nonempty_of_length {A : Type} (l : list A) (ell : Z) :
  1 <= ell -> length l = Z.to_nat ell -> l <> [].
Proof. intros H1 H2 E. subst. simpl in H2. lia. Qed.


End Credentials.

(* ================================================================= *)
(** ** Properties of the credential scheme *)

Section CredentialProperties.
Context {L : PairingLib}.

Import DelegatableAnonCredScheme.



(** C2, as the code has it.  The root key pair made by [__init__] is a
    key pair of the dual variant: the points of [initial_pk] are the
    multiples [sk[i] * p] of the generator of the first curve.
    [verify_chain] returns true exactly when the lists have the same
    length, [sig_list[0]] passes the dual variant's [verify] over
    [nym_list[0]] under [initial_pk], and every [sig_list[i+1]] passes,
    over [nym_list[i+1]] under [nym_list[i]], the primary variant's
    [verify] when [i] is even and the dual variant's when [i] is odd. *)
Theorem variant_assignment (ell : Z) (t0 t0' : tape) (self : t) :
  init ell t0 = Ok (self, t0') ->
  initial_pk self
  = map (fun x => point_mul x MercurialSignatureDual.p) (initial_sk self) /\
  forall nyms sigs,
    verify_chain self (nyms, sigs) = Ok true <->
    (length nyms = length sigs /\
     (exists nym_0 sig_0,
        nth_error nyms 0 = Some nym_0 /\
        nth_error sigs 0 = Some sig_0 /\
        MercurialSignatureDual.verify (initial_pk self) nym_0 sig_0
        = Ok true) /\
     (forall i nym_i nym_i1 sig_i1,
        nth_error nyms i = Some nym_i ->
        nth_error nyms (S i) = Some nym_i1 ->
        nth_error sigs (S i) = Some sig_i1 ->
        (if Nat.even i
         then MercurialSignatureScheme.verify nym_i nym_i1 sig_i1
         else MercurialSignatureDual.verify nym_i nym_i1 sig_i1)
        = Ok true)).
Proof.
  intro Hinit.
  destruct (init_Ok ell t0 t0' self Hinit) as (He & Ho & _ & Hpk & _).
  split; [exact Hpk|].
  intros nyms sigs. rewrite verify_chain_iff.
  unfold links_verify, root_link, link. simpl fst. simpl snd. rewrite He.
  change (scheme_verify Dual) with MercurialSignatureDual.verify.
  split; intros (Hlen & Hroot & Hlinks); (split; [assumption|]);
    (split; [assumption|]).
  - intros i nym_i nym_i1 sig_i1 E1 E2 E3.
    assert (S i < length nyms)%nat as Hi
      by (apply nth_error_Some; congruence).
    destruct (Hlinks i Hi) as (a & b & c & D1 & D2 & D3 & D4).
    rewrite (issuer_scheme_at_init ell t0 t0' self i Hinit) in D4.
    unfold variant_at in D4.
    assert (a = nym_i) by congruence.
    assert (b = nym_i1) by congruence.
    assert (c = sig_i1) by congruence. subst.
    destruct (Nat.even i); exact D4.
  - intros i Hi.
    destruct (nth_error nyms i) as [a|] eqn:E1;
      [|apply nth_error_None in E1; lia].
    destruct (nth_error nyms (S i)) as [b|] eqn:E2;
      [|apply nth_error_None in E2; lia].
    destruct (nth_error sigs (S i)) as [c|] eqn:E3;
      [|apply nth_error_None in E3; lia].
    exists a, b, c. repeat split.
    rewrite (issuer_scheme_at_init ell t0 t0' self i Hinit).
    unfold variant_at. specialize (Hlinks i a b c E1 E2 E3).
    destruct (Nat.even i); exact Hlinks.
Qed.

(** C7, as the code has it.  [__init__] stores in [initial_nym] the
    pair [(initial_pk, None)]; its first component is the initial public
    key, a list of as many points as the key length asks for. *)
Theorem initial_nym_is_a_pair (ell : Z) (t0 t0' : tape) (self : t) :
  init ell t0 = Ok (self, t0') ->
  initial_nym self = PyTuple (PyPoints (initial_pk self)) PyNone /\
  length (initial_pk self) = Z.to_nat ell.
Proof.
  intro Hinit.
  destruct (init_Ok ell t0 t0' self Hinit) as (_ & _ & _ & Hpk & Hsk & Hn).
  split; [assumption|].
  rewrite Hpk. unfold public_key_of. now rewrite length_map.
Qed.

End CredentialProperties.

(* ================================================================= *)
(** ** The credential scheme on concrete inputs *)












Lemma variant_assignment_witness :
  DelegatableAnonCredScheme.initial_pk Z11.dac
  = map (fun x => point_mul x MercurialSignatureDual.p)
      (DelegatableAnonCredScheme.initial_sk Z11.dac) /\
  forall nyms sigs,
    DelegatableAnonCredScheme.verify_chain Z11.dac (nyms, sigs) = Ok true <->
    (length nyms = length sigs /\
     (exists nym_0 sig_0,
        nth_error nyms 0 = Some nym_0 /\
        nth_error sigs 0 = Some sig_0 /\
        MercurialSignatureDual.verify
          (DelegatableAnonCredScheme.initial_pk Z11.dac) nym_0 sig_0
        = Ok true) /\
     (forall i nym_i nym_i1 sig_i1,
        nth_error nyms i = Some nym_i ->
        nth_error nyms (S i) = Some nym_i1 ->
        nth_error sigs (S i) = Some sig_i1 ->
        (if Nat.even i
         then MercurialSignatureScheme.verify nym_i nym_i1 sig_i1
         else MercurialSignatureDual.verify nym_i nym_i1 sig_i1)
        = Ok true)).
Proof.
  apply (variant_assignment (L := Z11.lib) 2 Z11.draws
           (drop_tape 2 Z11.draws) Z11.dac).
  reflexivity.
Defined.

Lemma initial_nym_is_a_pair_witness :
  DelegatableAnonCredScheme.initial_nym Z11.dac
  = PyTuple (PyPoints (DelegatableAnonCredScheme.initial_pk Z11.dac)) PyNone
  /\ length (DelegatableAnonCredScheme.initial_pk Z11.dac) = Z.to_nat 2.
Proof.
  apply (initial_nym_is_a_pair (L := Z11.lib) 2 Z11.draws
           (drop_tape 2 Z11.draws) Z11.dac).
  reflexivity.
Defined.

(** The assertions of [issue_next] are live: with a secret key that is
    not the key of the chain's last pseudonym, the assertion on the new
    link fails. *)
Example issue_next_wrong_key :
  DelegatableAnonCredScheme.issue_next Z11.dac Z11.chain1
    [Z11.g1 6; Z11.g1 10] [15; 20] Z11.draws = Raise AssertionError.
Proof. reflexivity. Qed.

(** C2 as stated fails on the instance built by [__init__(2)]: its root
    key is made of points of the first curve, the multiples of [p] and
    not of [phat]; the scheme that checks the root link is the dual one,
    and the chain [issue_first] returns passes [verify_chain] with a
    root link that the dual variant's [verify] accepts and the primary
    variant's does not; the issuer at the even position 0 is checked
    with the primary variant, the one at the odd position 1 with the
    dual variant. *)
Lemma root_key_is_dual :
  DelegatableAnonCredScheme.init (L := Z11.lib) 2 Z11.draws
  = Ok (Z11.dac, drop_tape 2 Z11.draws) /\
  DelegatableAnonCredScheme.even_issuer_scheme Z11.dac = Dual /\
  DelegatableAnonCredScheme.initial_pk Z11.dac = [Z11.g1 2; Z11.g1 3] /\
  DelegatableAnonCredScheme.initial_pk Z11.dac
  <> map (fun x => point_mul x MercurialSignatureScheme.phat)
       (DelegatableAnonCredScheme.initial_sk Z11.dac) /\
  DelegatableAnonCredScheme.issue_first Z11.dac [Z11.g2 8; Z11.g2 9]
    Z11.draws = Ok (Z11.chain1, tl_tape Z11.draws) /\
  DelegatableAnonCredScheme.verify_chain Z11.dac Z11.chain1 = Ok true /\
  MercurialSignatureScheme.verify
    (DelegatableAnonCredScheme.initial_pk Z11.dac) [Z11.g2 8; Z11.g2 9]
    (Z11.g2 9, Z11.g2 1, Z11.g1 6) <> Ok true /\
  MercurialSignatureDual.verify
    (DelegatableAnonCredScheme.initial_pk Z11.dac) [Z11.g2 8; Z11.g2 9]
    (Z11.g2 9, Z11.g2 1, Z11.g1 6) = Ok true /\
  DelegatableAnonCredScheme.issuer_scheme_at Z11.dac 0 = Primary /\
  DelegatableAnonCredScheme.issuer_scheme_at Z11.dac 1 = Dual.
Proof.
  repeat split; try reflexivity; intro H; discriminate H.
Qed.

(** C7 as stated fails: the stored [initial_nym] is a pair, not the list
    of points [initial_pk]. *)
Lemma initial_nym_is_not_initial_pk :
  DelegatableAnonCredScheme.init (L := Z11.lib) 2 Z11.draws
  = Ok (Z11.dac, drop_tape 2 Z11.draws) /\
  DelegatableAnonCredScheme.initial_nym Z11.dac
  <> PyPoints (DelegatableAnonCredScheme.initial_pk Z11.dac).
Proof.
  split; [reflexivity|]. intro H. discriminate H.
Qed.

(* ================================================================= *)
(** ** Hashing to the curves *)

Section Hashing.
Context {L : PairingLib}.

Lemma hash_loop_more_fuel (fuel k : nat) (hm : Z) (P : ECp) :
  MercurialSignatureScheme.hash_loop fuel hm = Some P ->
  MercurialSignatureScheme.hash_loop (fuel + k) hm = Some P.
Proof.
  revert hm. induction fuel as [|fuel IH]; intro hm; simpl;
    [discriminate|].
  destruct (ecp_set hm); [trivial|apply IH].
Qed.

(** C9, as the code has it.  The primary variant's [hash_message] is a
    function of its input: it returns the same value whatever the state
    of the random source, which it leaves untouched, and once the search
    for a point succeeds within a bound it returns that same point for
    every larger bound.  The dual variant's [hash_message] does not read
    its input: it returns the generator of the second curve multiplied
    by the scalar it draws. *)
Theorem hash_message_deterministic_in_primary :
  (forall fuel s, exists v,
      forall tp, MercurialSignatureScheme.hash_message fuel s tp
                 = Ok (v, tp)) /\
  (forall fuel k s tp,
      match MercurialSignatureScheme.hash_message fuel s tp with
      | Ok (Some P, _) =>
          MercurialSignatureScheme.hash_message (fuel + k) s tp
          = Ok (Some P, tp)
      | _ => True
      end) /\
  (forall s tp,
      MercurialSignatureDual.hash_message s tp
      = Ok (point_mul (tp 0%nat) (G2 ecp2_generator), tl_tape tp)).
Proof.
  split; [|split].
  - intros fuel s. unfold MercurialSignatureScheme.hash_message.
    destruct (MercurialSignatureScheme.hash_loop fuel (shake_256_big s));
      eexists; intro tp; reflexivity.
  - intros fuel k s tp. unfold MercurialSignatureScheme.hash_message.
    destruct (MercurialSignatureScheme.hash_loop fuel (shake_256_big s))
      as [P|] eqn:E; simpl; [|trivial].
    now rewrite (hash_loop_more_fuel fuel k _ P E).
  - reflexivity.
Qed.

End Hashing.

(** C9 as stated fails for the dual variant: two calls of
    [hash_message] on the same string, one after the other, return
    different points. *)
Lemma dual_hash_message_differs :
  (h1 <- MercurialSignatureDual.hash_message (L := Z11.lib) "foo"%string ;;
   h2 <- MercurialSignatureDual.hash_message "foo"%string ;;
   ret (h1, h2)) Z11.draws
  = Ok ((Z11.g2 4, Z11.g2 6), drop_tape 2 Z11.draws) /\
  Z11.g2 4 <> Z11.g2 6.
Proof.
  split; [reflexivity|].
  intro H. discriminate H.
Qed.

(** The primary variant's [hash_message] on the same string twice. *)
Example primary_hash_message_twice :
  (h1 <- MercurialSignatureScheme.hash_message (L := Z11.lib) 8 "foo"%string ;;
   h2 <- MercurialSignatureScheme.hash_message 8 "foo"%string ;;
   ret (h1, h2)) Z11.draws
  = Ok ((Some (Z11.g1 4), Some (Z11.g1 4)), Z11.draws).
Proof. reflexivity. Qed.

(* ================================================================= *)
(** ** Further properties of the signature schemes *)

Section SchemeProperties.
Context {L : PairingLib}.

Lemma zip_app_r {A B : Type} (l : list A) (l' extra : list B) :
  (length l <= length l')%nat -> zip l (l' ++ extra) = zip l l'.
Proof.
  unfold zip. revert l'.
  induction l as [|a l IH]; intros [|b l'] H; simpl in *; trivial;
    try lia.
  f_equal. apply IH. lia.
Qed.

Lemma verify_with_zip (s : scheme) pk pk' message message' sig :
  zip pk message = zip pk' message' ->
  verify_with s pk message sig = verify_with s pk' message' sig.
Proof.
  destruct sig as [[z y] yhat]. unfold verify_with. now intros ->.
Qed.

(** X1.  [key_gen(ell)] draws [ell] scalars (none when [ell <= 0]),
    returns them as the secret key, and returns as the public key their
    multiples of the variant's generator, in the same order: the two
    lists have [max(ell, 0)] elements and satisfy the key-pair
    invariant. *)
Theorem key_gen_key_pair (s : scheme) (ell : Z) (tp : tape) :
  exists pk sk,
    scheme_key_gen s ell tp = Ok ((pk, sk), drop_tape (Z.to_nat ell) tp) /\
    sk = take_tape (Z.to_nat ell) tp /\
    pk = map (fun x => point_mul x (key_generator s)) sk /\
    len sk = Z.max 0 ell /\
    len pk = Z.max 0 ell.
Proof.
  exists (public_key_of s (take_tape (Z.to_nat ell) tp)),
    (take_tape (Z.to_nat ell) tp).
  rewrite scheme_key_gen_eq. repeat split; trivial; unfold len, public_key_of;
    rewrite ?length_map, length_take_tape; lia.
Qed.

(** X2.  With an empty secret key or an empty message, [sign] raises
    [TypeError] ([reduce] of an empty list); with an empty public key or
    an empty message, so does [verify]: it does not return false. *)
Theorem empty_inputs_raise (s : scheme) (sk : list Z)
  (pk message : list point) (sig : signature) (tp : tape) :
  scheme_sign s [] message tp = Raise TypeError /\
  scheme_sign s sk [] tp = Raise TypeError /\
  scheme_verify s [] message sig = Raise TypeError /\
  scheme_verify s pk [] sig = Raise TypeError.
Proof.
  rewrite !scheme_sign_with, !scheme_verify_with.
  destruct sig as [[z y] yhat]. unfold sign_with, verify_with, zip.
  rewrite !combine_nil. simpl. auto.
Qed.

(** X3.  [verify] reads the message only as far as the public key
    reaches: points appended to a message as long as the key change
    nothing, so a signature accepted for a message is accepted for every
    extension of it. *)
Theorem verify_ignores_extra_points (s : scheme) (pk message extra : list point)
  (sig : signature) :
  (length pk <= length message)%nat ->
  scheme_verify s pk (message ++ extra) sig = scheme_verify s pk message sig.
Proof.
  intro H. rewrite !scheme_verify_with.
  apply verify_with_zip. now apply zip_app_r.
Qed.

(** X4.  For a [rho] that is not a multiple of [r],
    [convert_signature] maps every signature that [verify] accepts for a
    key and a message, whoever made it, to one that [verify] accepts for
    the converted key and the same message, when the [psi] it draws is
    invertible. *)
Theorem convert_signature_keeps_valid (s : scheme) (pk message : list point)
  (sig : signature) (rho : Z) (tp : tape) :
  scheme_verify s pk message sig = Ok true ->
  unit_scalar rho ->
  unit_scalar (tp 0%nat) ->
  exists sig',
    scheme_convert_signature s pk message sig rho tp
    = Ok (sig', tl_tape tp) /\
    scheme_verify s (scheme_convert_public_key s pk rho) message sig'
    = Ok true.
Proof.
  intros Hv Hrho Hpsi. rewrite scheme_verify_with in Hv.
  exists (rescale (tp 0%nat) rho sig).
  rewrite scheme_convert_signature_eq, scheme_verify_with,
    scheme_convert_public_key_eq.
  split; [reflexivity|]. now apply verify_with_convert.
Qed.

(** X5.  For a [mu] that is not a multiple of [r],
    [change_representation] maps every message and signature that
    [verify] accepts under a key to a message, the old one scaled by
    [mu], and a signature that [verify] accepts under the same key, when
    the [psi] it draws is invertible. *)
Theorem change_representation_keeps_valid (s : scheme)
  (pk message : list point) (sig : signature) (mu : Z) (tp : tape) :
  scheme_verify s pk message sig = Ok true ->
  unit_scalar mu ->
  unit_scalar (tp 0%nat) ->
  exists sig',
    scheme_change_representation s pk message sig mu tp
    = Ok ((map (point_mul mu) message, sig'), tl_tape tp) /\
    scheme_verify s pk (map (point_mul mu) message) sig' = Ok true.
Proof.
  intros Hv Hmu Hpsi. rewrite scheme_verify_with in Hv.
  exists (rescale (tp 0%nat) mu sig).
  rewrite scheme_change_representation_eq, scheme_verify_with.
  split; [reflexivity|]. now apply verify_with_change.
Qed.

(** X6.  A signature made with the converted secret key is accepted
    under the converted public key: [convert_secret_key] and
    [convert_public_key] by the same [rho], not a multiple of [r], keep
    a key pair a key pair that signs and verifies, for a key of scalars
    that are not multiples of [r], a message without the point at
    infinity, a sum [sk[0] * M[0] + ...] that is not the point at
    infinity and an invertible draw [y]. *)
Theorem converted_key_pair_signs (s : scheme) (sk : list Z)
  (message : list point) (rho : Z) (tp : tape) :
  sk <> [] ->
  message <> [] ->
  unit_key sk ->
  unit_scalar rho ->
  proper_message s message ->
  signable sk message ->
  unit_scalar (tp 0%nat) ->
  exists sig,
    scheme_sign s (scheme_convert_secret_key s sk rho) message tp
    = Ok (sig, tl_tape tp) /\
    scheme_verify s
      (scheme_convert_public_key s
         (map (fun x => point_mul x (key_generator s)) sk) rho)
      message sig = Ok true.
Proof.
  intros Hsk Hmsg Hu Hrho Hm Hsum Hy.
  rewrite scheme_convert_secret_key_eq, scheme_convert_public_key_eq.
  assert (map (fun xi => rho * xi) sk <> []) as Hsk'
    by (destruct sk; [congruence|discriminate]).
  destruct (sign_with_verifies s (tp 0%nat) _ message Hy
              (unit_key_convert sk rho Hrho Hu) Hm Hsk' Hmsg
              (signable_convert sk message rho Hrho Hsum))
    as [sig [Hs Hv]].
  exists sig. rewrite scheme_sign_with, Hs, scheme_verify_with.
  split; [reflexivity|].
  change (map (fun x => point_mul x (key_generator s)) sk)
    with (public_key_of s sk).
  now rewrite <- public_key_of_convert.
Qed.

(** X7.  Conversions compose: converting a public key by [a] and then by
    [b] is converting it by [b * a], and likewise for a secret key; both
    keep the length of the key. *)
Theorem conversions_compose (s : scheme) (pk : list point) (sk : list Z)
  (a b : Z) :
  scheme_convert_public_key s (scheme_convert_public_key s pk a) b
  = scheme_convert_public_key s pk (b * a) /\
  scheme_convert_secret_key s (scheme_convert_secret_key s sk a) b
  = scheme_convert_secret_key s sk (b * a) /\
  length (scheme_convert_public_key s pk a) = length pk /\
  length (scheme_convert_secret_key s sk a) = length sk.
Proof.
  rewrite !scheme_convert_public_key_eq, !scheme_convert_secret_key_eq.
  rewrite !map_map, !length_map. repeat split.
  - apply map_ext. intro P. apply point_mul_mul.
  - apply map_ext. intro x. lia.
Qed.

(** The first [x]-coordinate the loop of [hash_message] accepts. *)
Lemma hash_loop_first (fuel : nat) (hm : Z) (P : ECp) :
  MercurialSignatureScheme.hash_loop fuel hm = Some P ->
  exists k : nat,
    (k < fuel)%nat /\
    ecp_set (hm + Z.of_nat k) = Some P /\
    forall j : nat, (j < k)%nat -> ecp_set (hm + Z.of_nat j) = None.
Proof.
  revert hm. induction fuel as [|fuel IH]; intro hm; simpl;
    [discriminate|].
  destruct (ecp_set hm) as [Q|] eqn:E.
  - intro H. injection H as <-. exists 0%nat.
    rewrite Z.add_0_r. repeat split; [lia|assumption|intros j Hj; lia].
  - intro H. destruct (IH _ H) as (k & Hk & Hset & Hmin).
    exists (S k). split; [lia|]. split.
    + rewrite <- Hset. f_equal. lia.
    + intros [|j] Hj.
      * now rewrite Z.add_0_r.
      * rewrite <- (Hmin j) by lia. f_equal. lia.
Qed.

(** X8.  When the primary variant's [hash_message] returns a point, it
    is [curve.x] times the point [ECp.set] builds from the first
    integer, counting up from the digest of the message, that [ECp.set]
    accepts. *)
Theorem hash_message_first_point (fuel : nat) (message : String.string)
  (P : point) (tp tp' : tape) :
  MercurialSignatureScheme.hash_message fuel message tp = Ok (Some P, tp') ->
  exists (k : nat) (Q : ECp),
    (k < fuel)%nat /\
    ecp_set (shake_256_big message + Z.of_nat k) = Some Q /\
    (forall j : nat, (j < k)%nat ->
       ecp_set (shake_256_big message + Z.of_nat j) = None) /\
    P = G1 (ecp_mul curve_x Q).
Proof.
  unfold MercurialSignatureScheme.hash_message.
  destruct (MercurialSignatureScheme.hash_loop fuel (shake_256_big message))
    as [Q|] eqn:E; simpl; intro H; [|discriminate].
  injection H as <- _.
  destruct (hash_loop_first fuel _ Q E) as (k & Hk & Hset & Hmin).
  exists k, Q. auto.
Qed.

End SchemeProperties.

(* ================================================================= *)
(** ** Further properties of the credential scheme *)

Section ChainProperties.
Context {L : PairingLib}.

Import DelegatableAnonCredScheme.

Lemma bind_M_inv {A B : Type} (c : M A) (k : A -> M B) (t : tape)
  (r : B * tape) :
  bind c k t = Ok r -> exists a t', c t = Ok (a, t') /\ k a t' = Ok r.
Proof.
  simpl. destruct (c t) as [[a t']|]; [|discriminate]. eauto.
Qed.

Lemma liftR_inv {A : Type} (c : result A) (a : A) (t t' : tape) :
  liftR c t = Ok (a, t') -> c = Ok a /\ t' = t.
Proof.
  unfold liftR. destruct c; [|discriminate].
  intro H. injection H as <- <-. auto.
Qed.

Lemma setitem_Ok {A : Type} (l l' : list A) (k : nat) (v : A) :
  setitem l (Z.of_nat k) v = Ok l' ->
  l' = list_update l k v /\ (k < length l)%nat.
Proof.
  unfold setitem, len.
  assert ((Z.of_nat k <? 0) = false) as E1 by (apply Z.ltb_ge; lia).
  cbv zeta. rewrite E1. cbv iota. rewrite E1. simpl.
  destruct (Z.of_nat (length l) <=? Z.of_nat k) eqn:E2; [discriminate|].
  apply Z.leb_gt in E2. rewrite Nat2Z.id.
  intro H. injection H as <-. split; [reflexivity|lia].
Qed.

Lemma nth_error_firstn_lt {A : Type} (l : list A) (k i : nat) :
  (i < k)%nat -> nth_error (firstn k l) i = nth_error l i.
Proof.
  revert k i. induction l as [|a l IH]; intros [|k] [|i] H; simpl;
    trivial; try lia.
  apply IH. lia.
Qed.

Lemma rescaled_nyms_refl (nyms : list (list point)) :
  rescaled_nyms nyms nyms.
Proof.
  induction nyms as [|nym nyms IH]; constructor; trivial.
  exists 1. now rewrite map_point_mul_1.
Qed.

Lemma rescaled_nyms_trans (a b c : list (list point)) :
  rescaled_nyms a b -> rescaled_nyms b c -> rescaled_nyms a c.
Proof.
  intro H. revert c. induction H as [|x y a b [k ->] _ IH]; intros c Hc;
    inversion Hc as [|? z ? c' [k' ->] Hc']; subst; constructor.
  - exists (k' * k). rewrite map_map. apply map_ext. intro P.
    apply point_mul_mul.
  - apply IH. exact Hc'.
Qed.

Lemma rescaled_nyms_update (nyms : list (list point)) (k : nat)
  (nym : list point) (c : Z) :
  nth_error nyms k = Some nym ->
  rescaled_nyms nyms (list_update nyms k (map (point_mul c) nym)).
Proof.
  revert k. induction nyms as [|a nyms IH]; intros [|k] H; simpl in *;
    try discriminate.
  - injection H as ->. constructor; [eauto|apply rescaled_nyms_refl].
  - constructor; [|now apply IH].
    exists 1. now rewrite map_point_mul_1.
Qed.

(** Whatever the loop of [issue_next] returns, it has only rescaled the
    pseudonyms. *)
Lemma issue_next_loop_rescales (self : t) (indices : list nat) :
  forall nyms sigs rho tp nyms' sigs' rho' tp',
    issue_next_loop self (map Z.of_nat indices) nyms sigs rho tp
    = Ok ((nyms', sigs', rho'), tp') ->
    rescaled_nyms nyms nyms' /\ length sigs' = length sigs.
Proof.
  induction indices as [|i indices IH];
    intros nyms sigs rho tp nyms' sigs' rho' tp' H.
  - simpl in H. injection H as <- <- _ _.
    split; [apply rescaled_nyms_refl|reflexivity].
  - cbn [map issue_next_loop] in H. rewrite (of_nat_succ i) in H.
    apply bind_M_inv in H. destruct H as (n1 & t1 & _ & H).
    apply bind_M_inv in H. destruct H as (n2 & t2 & _ & H).
    apply bind_M_inv in H. destruct H as (s3 & t3 & _ & H).
    apply bind_M_inv in H. destruct H as (sig_tilde & t4 & _ & H).
    apply bind_M_inv in H. destruct H as (rho1 & t5 & _ & H).
    apply bind_M_inv in H. destruct H as (n6 & t6 & _ & H).
    apply bind_M_inv in H. destruct H as (n7 & t7 & E7 & H).
    apply liftR_inv in E7. destruct E7 as [E7 ->].
    apply getitem_Ok in E7; [|lia]. rewrite Nat2Z.id in E7.
    apply bind_M_inv in H. destruct H as ([nym' sig'] & t8 & E8 & H).
    rewrite scheme_change_representation_eq in E8.
    injection E8 as <- <- <-.
    apply bind_M_inv in H. destruct H as (nyms1 & t9 & E9 & H).
    apply liftR_inv in E9. destruct E9 as [E9 ->].
    apply setitem_Ok in E9. destruct E9 as [-> _].
    apply bind_M_inv in H. destruct H as (sigs1 & t10 & E10 & H).
    apply liftR_inv in E10. destruct E10 as [E10 ->].
    apply setitem_Ok in E10. destruct E10 as [-> _].
    apply bind_M_inv in H. destruct H as (n11 & t11 & _ & H).
    apply bind_M_inv in H. destruct H as (n12 & t12 & _ & H).
    apply bind_M_inv in H. destruct H as (s13 & t13 & _ & H).
    apply bind_M_inv in H. destruct H as (ok & t14 & _ & H).
    apply bind_M_inv in H. destruct H as (u & t15 & _ & H).
    apply IH in H. destruct H as [Hr Hl]. split.
    + eapply rescaled_nyms_trans; [|exact Hr].
      now apply rescaled_nyms_update.
    + now rewrite Hl, length_list_update.
Qed.

(** X9.  On an instance built by [__init__], the pseudonyms [nym_gen]
    returns for keys of [key_gen] are the public keys of the secret keys
    it returns with them: multiples of [p] for the even issuers, of
    [phat] for the odd issuers; each secret key is the old one times the
    [rho] drawn for it, and all four lists have [max(ell, 0)]
    elements. *)
Theorem nym_gen_key_pairs (ell : Z) (t0 t0' : tape) (self : t)
  (tk tk' u u' : tape) (even_pk odd_pk even_nym odd_nym : list point)
  (even_sk odd_sk even_sk' odd_sk' : list Z) :
  init ell t0 = Ok (self, t0') ->
  key_gen self tk = Ok (((even_pk, even_sk), (odd_pk, odd_sk)), tk') ->
  nym_gen self even_pk even_sk odd_pk odd_sk u
  = Ok (((even_nym, even_sk'), (odd_nym, odd_sk')), u') ->
  even_nym = map (fun x => point_mul x MercurialSignatureDual.p) even_sk' /\
  odd_nym = map (fun x => point_mul x MercurialSignatureScheme.phat) odd_sk' /\
  even_sk' = map (fun x => u 0%nat * x) even_sk /\
  odd_sk' = map (fun x => u 1%nat * x) odd_sk /\
  len even_nym = Z.max 0 ell /\ len odd_nym = Z.max 0 ell.
Proof.
  intros Hinit Hk Hn.
  apply init_Ok in Hinit. destruct Hinit as (He & Ho & Hkl & _).
  unfold key_gen in Hk. rewrite He, Ho, Hkl in Hk.
  rewrite (bind_M _ _ _ _ _ (scheme_key_gen_eq Dual ell tk)) in Hk.
  cbv beta iota in Hk.
  rewrite (bind_M _ _ _ _ _ (scheme_key_gen_eq Primary ell _)) in Hk.
  cbv beta iota in Hk. simpl in Hk.
  injection Hk as <- <- <- <- _.
  unfold nym_gen in Hn. rewrite He, Ho in Hn.
  rewrite (bind_M _ _ _ _ _ (scheme_random_zp_eq Dual u)) in Hn.
  rewrite (bind_M _ _ _ _ _ (scheme_random_zp_eq Primary _)) in Hn.
  rewrite !scheme_convert_secret_key_eq, !scheme_convert_public_key_eq in Hn.
  simpl in Hn. injection Hn as <- <- <- <- _.
  repeat split.
  - symmetry. apply (public_key_of_convert Dual).
  - symmetry. apply (public_key_of_convert Primary).
  - unfold len, public_key_of. rewrite !length_map, length_take_tape. lia.
  - unfold len, public_key_of. rewrite !length_map, length_take_tape. lia.
Qed.

(** X10.  On a chain whose two lists differ in length, [verify_chain]
    and [issue_next] raise [AssertionError]; [verify_chain] does not
    return false, and [issue_next] stops before it draws or changes
    anything. *)
Theorem chain_length_mismatch_raises (self : t) (nyms : list (list point))
  (sigs : list signature) (new_nym : list point) (sk : list Z) (tp : tape) :
  length nyms <> length sigs ->
  verify_chain self (nyms, sigs) = Raise AssertionError /\
  issue_next self (nyms, sigs) new_nym sk tp = Raise AssertionError.
Proof.
  intro H.
  assert ((len nyms =? len sigs) = false) as E
    by (apply Z.eqb_neq; unfold len; lia).
  unfold verify_chain, issue_next. rewrite E. auto.
Qed.

(** X11.  On the empty chain, [verify_chain] and [issue_next] raise
    [IndexError] at [nym_list[0]]. *)
Theorem empty_chain_raises (self : t) (new_nym : list point) (sk : list Z)
  (tp : tape) :
  verify_chain self ([], []) = Raise IndexError /\
  issue_next self ([], []) new_nym sk tp = Raise IndexError.
Proof.
  split; [reflexivity|].
  unfold issue_next. rewrite bind_assert by reflexivity.
  now rewrite (bind_M _ _ _ _ _ (scheme_random_zp_eq _ _)).
Qed.

(** X12.  Every non-empty prefix of a chain that [verify_chain] accepts
    is accepted: cutting both lists after the first [k] links leaves a
    valid chain. *)
Theorem verify_chain_prefix (self : t) (nyms : list (list point))
  (sigs : list signature) (k : nat) :
  verify_chain self (nyms, sigs) = Ok true ->
  (0 < k)%nat ->
  verify_chain self (firstn k nyms, firstn k sigs) = Ok true.
Proof.
  rewrite !verify_chain_iff. unfold links_verify, root_link, link.
  simpl fst. simpl snd.
  intros (Hlen & (n0 & s0 & R1 & R2 & R3) & Hlinks) Hk.
  rewrite !length_firstn. split; [lia|]. split.
  - exists n0, s0. rewrite !nth_error_firstn_lt by lia. auto.
  - intros i Hi.
    destruct (Hlinks i ltac:(lia)) as (a & b & c & D1 & D2 & D3 & D4).
    exists a, b, c. rewrite !nth_error_firstn_lt by lia. auto.
Qed.

(** X13.  A chain that [verify_chain] accepts is not empty, its two
    lists have the same length, and none of its pseudonyms is the empty
    list. *)
Theorem verified_chain_pseudonyms_nonempty (self : t)
  (nyms : list (list point)) (sigs : list signature) :
  verify_chain self (nyms, sigs) = Ok true ->
  nyms <> [] /\ length nyms = length sigs /\
  Forall (fun nym => nym <> []) nyms.
Proof.
  rewrite verify_chain_iff. unfold links_verify, root_link, link.
  simpl fst. simpl snd.
  intros (Hlen & (n0 & s0 & R1 & R2 & R3) & Hlinks).
  split; [intro; subst; discriminate|]. split; [assumption|].
  apply Forall_forall. intros nym Hin.
  apply In_nth_error in Hin. destruct Hin as [[|i] Hi].
  - rewrite R1 in Hi. injection Hi as <-.
    rewrite scheme_verify_with in R3.
    eapply zip_nonempty_r, verify_with_nonempty, R3.
  - assert (S i < length nyms)%nat as Hlt
      by (apply nth_error_Some; congruence).
    destruct (Hlinks i Hlt) as (a & b & c & D1 & D2 & D3 & D4).
    rewrite Hi in D2. injection D2 as <-.
    rewrite scheme_verify_with in D4.
    eapply zip_nonempty_r, verify_with_nonempty, D4.
Qed.

(** X14.  Whenever [issue_next] returns, the lists of the input chain
    had the same length, the returned chain is one link longer, its last
    pseudonym is [new_nym] as given, and each earlier pseudonym is the
    input's pseudonym at the same position with all its points
    multiplied by one scalar. *)
Theorem issue_next_rescales (self : t) (nyms : list (list point))
  (sigs : list signature) (new_nym : list point) (sk : list Z)
  (tp tp' : tape) (chain' : cred_chain) :
  issue_next self (nyms, sigs) new_nym sk tp = Ok (chain', tp') ->
  exists nyms' sigs',
    chain' = (nyms' ++ [new_nym], sigs') /\
    rescaled_nyms nyms nyms' /\
    length nyms = length sigs /\
    length sigs' = S (length sigs).
Proof.
  unfold issue_next. intro H.
  destruct (len nyms =? len sigs) eqn:El.
  2:{ apply bind_M_inv in H. destruct H as (u & t1 & E & _).
      discriminate E. }
  apply Z.eqb_eq in El. unfold len in El. apply Nat2Z.inj in El.
  apply bind_M_inv in H. destruct H as (u & t1 & _ & H).
  apply bind_M_inv in H. destruct H as (rho & t2 & _ & H).
  apply bind_M_inv in H. destruct H as (n0 & t3 & E3 & H).
  apply liftR_inv in E3. destruct E3 as [E3 ->].
  apply getitem_Ok in E3; [|lia]. simpl in E3.
  apply bind_M_inv in H. destruct H as (s0 & t4 & _ & H).
  apply bind_M_inv in H. destruct H as ([nym' sig'] & t5 & E5 & H).
  rewrite scheme_change_representation_eq in E5.
  injection E5 as <- <- <-.
  apply bind_M_inv in H. destruct H as (nyms1 & t6 & E6 & H).
  apply liftR_inv in E6. destruct E6 as [E6 ->].
  apply (setitem_Ok nyms nyms1 0) in E6. destruct E6 as [-> _].
  apply bind_M_inv in H. destruct H as (sigs1 & t7 & E7 & H).
  apply liftR_inv in E7. destruct E7 as [E7 ->].
  apply (setitem_Ok sigs sigs1 0) in E7. destruct E7 as [-> _].
  apply bind_M_inv in H. destruct H as (n8 & t8 & _ & H).
  apply bind_M_inv in H. destruct H as (s9 & t9 & _ & H).
  apply bind_M_inv in H. destruct H as (ok & t10 & _ & H).
  apply bind_M_inv in H. destruct H as (u' & t11 & _ & H).
  apply bind_M_inv in H.
  destruct H as ([[nyms2 sigs2] rho2] & t12 & E12 & H).
  unfold range in E12.
  apply issue_next_loop_rescales in E12. destruct E12 as [Hr Hl].
  cbv beta iota zeta in H.
  apply bind_M_inv in H. destruct H as (sig_new & t13 & _ & H).
  apply bind_M_inv in H. destruct H as (n14 & t14 & _ & H).
  apply bind_M_inv in H. destruct H as (n15 & t15 & _ & H).
  apply bind_M_inv in H. destruct H as (s16 & t16 & _ & H).
  apply bind_M_inv in H. destruct H as (ok' & t17 & _ & H).
  apply bind_M_inv in H. destruct H as (u'' & t18 & _ & H).
  simpl in H. injection H as <- _.
  exists nyms2, (sigs2 ++ [sig_new]). split; [reflexivity|]. split.
  - eapply rescaled_nyms_trans; [|exact Hr].
    now apply rescaled_nyms_update.
  - split; [assumption|].
    rewrite length_app, Hl, length_list_update. simpl. lia.
Qed.

End ChainProperties.

Section Draws.
Context {L : PairingLib}.

Import DelegatableAnonCredScheme.

Lemma scheme_sign_tape (s : scheme) (sk : list Z) (message : list point)
  (sig : signature) (tp tp' : tape) :
  scheme_sign s sk message tp = Ok (sig, tp') -> tp' = tl_tape tp.
Proof.
  rewrite scheme_sign_with.
  destruct (sign_with s (tp 0%nat) sk message); [|discriminate].
  intro H. now injection H as _ <-.
Qed.

(** Each turn of the loop of [issue_next] draws three scalars. *)
Lemma issue_next_loop_draws (self : t) (indices : list Z) :
  forall nyms sigs rho tp r tp',
    issue_next_loop self indices nyms sigs rho tp = Ok (r, tp') ->
    forall k, tp' k = tp (3 * length indices + k)%nat.
Proof.
  induction indices as [|i indices IH]; intros nyms sigs rho tp r tp' H k.
  - simpl in H. now injection H as _ <-.
  - cbn [issue_next_loop] in H.
    apply bind_M_inv in H. destruct H as (n1 & t1 & E & H).
    apply liftR_inv in E. destruct E as [_ ->].
    apply bind_M_inv in H. destruct H as (n2 & t2 & E & H).
    apply liftR_inv in E. destruct E as [_ ->].
    apply bind_M_inv in H. destruct H as (s3 & t3 & E & H).
    apply liftR_inv in E. destruct E as [_ ->].
    apply bind_M_inv in H. destruct H as (sig_tilde & t4 & E & H).
    rewrite scheme_convert_signature_eq in E. injection E as _ <-.
    apply bind_M_inv in H. destruct H as (rho1 & t5 & E & H).
    rewrite scheme_random_zp_eq in E. injection E as _ <-.
    apply bind_M_inv in H. destruct H as (n6 & t6 & E & H).
    apply liftR_inv in E. destruct E as [_ ->].
    apply bind_M_inv in H. destruct H as (n7 & t7 & E & H).
    apply liftR_inv in E. destruct E as [_ ->].
    apply bind_M_inv in H. destruct H as ([nym' sig'] & t8 & E & H).
    rewrite scheme_change_representation_eq in E. injection E as _ _ <-.
    apply bind_M_inv in H. destruct H as (nyms1 & t9 & E & H).
    apply liftR_inv in E. destruct E as [_ ->].
    apply bind_M_inv in H. destruct H as (sigs1 & t10 & E & H).
    apply liftR_inv in E. destruct E as [_ ->].
    apply bind_M_inv in H. destruct H as (n11 & t11 & E & H).
    apply liftR_inv in E. destruct E as [_ ->].
    apply bind_M_inv in H. destruct H as (n12 & t12 & E & H).
    apply liftR_inv in E. destruct E as [_ ->].
    apply bind_M_inv in H. destruct H as (s13 & t13 & E & H).
    apply liftR_inv in E. destruct E as [_ ->].
    apply bind_M_inv in H. destruct H as (ok & t14 & E & H).
    apply liftR_inv in E. destruct E as [_ ->].
    apply bind_M_inv in H. destruct H as (u & t15 & E & H).
    apply liftR_inv in E. destruct E as [_ ->].
    rewrite (IH _ _ _ _ _ _ H k). unfold tl_tape. f_equal.
    simpl length. lia.
Qed.

(** X15.  Whenever [issue_next] returns on a chain of [n] links, it has
    drawn exactly [3 * n] scalars from the random source: two for the
    root link, three for each further link, one for the new
    signature. *)
Theorem issue_next_draws (self : t) (nyms : list (list point))
  (sigs : list signature) (new_nym : list point) (sk : list Z)
  (tp tp' : tape) (chain' : cred_chain) :
  issue_next self (nyms, sigs) new_nym sk tp = Ok (chain', tp') ->
  forall k, tp' k = tp (3 * length nyms + k)%nat.
Proof.
  unfold issue_next. intros H k.
  apply bind_M_inv in H. destruct H as (u & t1 & E & H).
  apply liftR_inv in E. destruct E as [_ ->].
  apply bind_M_inv in H. destruct H as (rho & t2 & E & H).
  rewrite scheme_random_zp_eq in E. injection E as _ <-.
  apply bind_M_inv in H. destruct H as (n0 & t3 & E3 & H).
  apply liftR_inv in E3. destruct E3 as [E3 ->].
  apply getitem_Ok in E3; [|lia]. simpl in E3.
  apply bind_M_inv in H. destruct H as (s0 & t4 & E & H).
  apply liftR_inv in E. destruct E as [_ ->].
  apply bind_M_inv in H. destruct H as ([nym' sig'] & t5 & E & H).
  rewrite scheme_change_representation_eq in E. injection E as <- _ <-.
  apply bind_M_inv in H. destruct H as (nyms1 & t6 & E6 & H).
  apply liftR_inv in E6. destruct E6 as [E6 ->].
  apply (setitem_Ok nyms nyms1 0) in E6. destruct E6 as [-> _].
  apply bind_M_inv in H. destruct H as (sigs1 & t7 & E & H).
  apply liftR_inv in E. destruct E as [_ ->].
  apply bind_M_inv in H. destruct H as (n8 & t8 & E & H).
  apply liftR_inv in E. destruct E as [_ ->].
  apply bind_M_inv in H. destruct H as (s9 & t9 & E & H).
  apply liftR_inv in E. destruct E as [_ ->].
  apply bind_M_inv in H. destruct H as (ok & t10 & E & H).
  apply liftR_inv in E. destruct E as [_ ->].
  apply bind_M_inv in H. destruct H as (u' & t11 & E & H).
  apply liftR_inv in E. destruct E as [_ ->].
  apply bind_M_inv in H.
  destruct H as ([[nyms2 sigs2] rho2] & t12 & E12 & H).
  pose proof (issue_next_loop_draws _ _ _ _ _ _ _ _ E12) as Hloop.
  cbv beta iota zeta in H.
  apply bind_M_inv in H. destruct H as (sig_new & t13 & E & H).
  apply scheme_sign_tape in E. subst t13.
  apply bind_M_inv in H. destruct H as (n14 & t14 & E & H).
  apply liftR_inv in E. destruct E as [_ ->].
  apply bind_M_inv in H. destruct H as (n15 & t15 & E & H).
  apply liftR_inv in E. destruct E as [_ ->].
  apply bind_M_inv in H. destruct H as (s16 & t16 & E & H).
  apply liftR_inv in E. destruct E as [_ ->].
  apply bind_M_inv in H. destruct H as (ok' & t17 & E & H).
  apply liftR_inv in E. destruct E as [_ ->].
  apply bind_M_inv in H. destruct H as (u'' & t18 & E & H).
  apply liftR_inv in E. destruct E as [_ ->].
  simpl in H. injection H as _ <-.
  unfold tl_tape at 1. rewrite Hloop. unfold tl_tape. f_equal.
  unfold range, len. rewrite length_map, length_seq, length_list_update.
  assert (0 < length nyms)%nat
    by (destruct nyms; [discriminate|simpl; lia]).
  lia.
Qed.

End Draws.

(* ================================================================= *)
(** ** The further properties on concrete inputs *)

Lemma verify_ignores_extra_points_witness :
  scheme_verify (L := Z11.lib) Primary [Z11.g2 4; Z11.g2 6]
    ([Z11.g1 4; Z11.g1 9] ++ [Z11.g1 7]) (Z11.g1 4, Z11.g1 6, Z11.g2 1)
  = scheme_verify Primary [Z11.g2 4; Z11.g2 6] [Z11.g1 4; Z11.g1 9]
      (Z11.g1 4, Z11.g1 6, Z11.g2 1).
Proof.
  apply (verify_ignores_extra_points (L := Z11.lib) Primary
           [Z11.g2 4; Z11.g2 6] [Z11.g1 4; Z11.g1 9] [Z11.g1 7]).
  simpl. lia.
Defined.

Lemma convert_signature_keeps_valid_witness :
  exists sig',
    scheme_convert_signature (L := Z11.lib) Primary [Z11.g2 4; Z11.g2 6]
      [Z11.g1 4; Z11.g1 9] (Z11.g1 4, Z11.g1 6, Z11.g2 1) 5 Z11.draws
    = Ok (sig', tl_tape Z11.draws) /\
    scheme_verify Primary
      (scheme_convert_public_key Primary [Z11.g2 4; Z11.g2 6] 5)
      [Z11.g1 4; Z11.g1 9] sig' = Ok true.
Proof.
  apply (convert_signature_keeps_valid (L := Z11.lib) Primary
           [Z11.g2 4; Z11.g2 6] [Z11.g1 4; Z11.g1 9]
           (Z11.g1 4, Z11.g1 6, Z11.g2 1) 5 Z11.draws).
  - reflexivity.
  - vm_compute; discriminate.
  - vm_compute; discriminate.
Defined.

Lemma change_representation_keeps_valid_witness :
  exists sig',
    scheme_change_representation (L := Z11.lib) Primary
      [Z11.g2 4; Z11.g2 6] [Z11.g1 4; Z11.g1 9]
      (Z11.g1 4, Z11.g1 6, Z11.g2 1) 5 Z11.draws
    = Ok ((map (point_mul 5) [Z11.g1 4; Z11.g1 9], sig'),
          tl_tape Z11.draws) /\
    scheme_verify Primary [Z11.g2 4; Z11.g2 6]
      (map (point_mul 5) [Z11.g1 4; Z11.g1 9]) sig' = Ok true.
Proof.
  apply (change_representation_keeps_valid (L := Z11.lib) Primary
           [Z11.g2 4; Z11.g2 6] [Z11.g1 4; Z11.g1 9]
           (Z11.g1 4, Z11.g1 6, Z11.g2 1) 5 Z11.draws).
  - reflexivity.
  - vm_compute; discriminate.
  - vm_compute; discriminate.
Defined.

Lemma converted_key_pair_signs_witness :
  exists sig,
    scheme_sign (L := Z11.lib) Dual
      (scheme_convert_secret_key Dual [2; 3] 5) [Z11.g2 4; Z11.g2 9]
      Z11.draws = Ok (sig, tl_tape Z11.draws) /\
    scheme_verify Dual
      (scheme_convert_public_key Dual
         (map (fun x => point_mul x (key_generator Dual)) [2; 3]) 5)
      [Z11.g2 4; Z11.g2 9] sig = Ok true.
Proof.
  apply (converted_key_pair_signs (L := Z11.lib) Dual [2; 3]
           [Z11.g2 4; Z11.g2 9] 5 Z11.draws).
  - discriminate.
  - discriminate.
  - repeat constructor; vm_compute; discriminate.
  - vm_compute; discriminate.
  - repeat constructor.
  - exists (Z11.g2 2). split; reflexivity.
  - vm_compute; discriminate.
Defined.

Lemma hash_message_first_point_witness :
  exists (k : nat) (Q : @ECp Z11.lib),
    (k < 8)%nat /\
    @ecp_set Z11.lib (@shake_256_big Z11.lib "foo"%string + Z.of_nat k)
    = Some Q /\
    (forall j : nat, (j < k)%nat ->
       @ecp_set Z11.lib (@shake_256_big Z11.lib "foo"%string + Z.of_nat j)
       = None) /\
    Z11.g1 4 = G1 (@ecp_mul Z11.lib (@curve_x Z11.lib) Q).
Proof.
  apply (hash_message_first_point (L := Z11.lib) 8 "foo"%string
           (Z11.g1 4) Z11.draws Z11.draws).
  reflexivity.
Defined.

Lemma nym_gen_key_pairs_witness :
  [Z11.g1 4; Z11.g1 6]
  = map (fun x => point_mul x MercurialSignatureDual.p) [4; 6] /\
  [Z11.g2 8; Z11.g2 9]
  = map (fun x => point_mul x MercurialSignatureScheme.phat) [15; 21] /\
  [4; 6] = map (fun x => Z11.draws 0%nat * x) [2; 3] /\
  [15; 21] = map (fun x => Z11.draws 1%nat * x) [5; 7] /\
  len [Z11.g1 4; Z11.g1 6] = Z.max 0 2 /\
  len [Z11.g2 8; Z11.g2 9] = Z.max 0 2.
Proof.
  apply (nym_gen_key_pairs (L := Z11.lib) 2 Z11.draws
           (drop_tape 2 Z11.draws) Z11.dac Z11.draws
           (drop_tape 4 Z11.draws) Z11.draws (drop_tape 2 Z11.draws)
           [Z11.g1 2; Z11.g1 3] [Z11.g2 10; Z11.g2 3]
           [Z11.g1 4; Z11.g1 6] [Z11.g2 8; Z11.g2 9]
           [2; 3] [5; 7] [4; 6] [15; 21]).
  - reflexivity.
  - reflexivity.
  - reflexivity.
Defined.

Lemma chain_length_mismatch_raises_witness :
  DelegatableAnonCredScheme.verify_chain Z11.dac
    ([[Z11.g2 8; Z11.g2 9]], []) = Raise AssertionError /\
  DelegatableAnonCredScheme.issue_next Z11.dac
    ([[Z11.g2 8; Z11.g2 9]], []) [Z11.g1 6; Z11.g1 10] [15; 21] Z11.draws
  = Raise AssertionError.
Proof.
  apply (chain_length_mismatch_raises (L := Z11.lib) Z11.dac
           [[Z11.g2 8; Z11.g2 9]] [] [Z11.g1 6; Z11.g1 10] [15; 21]
           Z11.draws).
  discriminate.
Defined.

Lemma verify_chain_prefix_witness :
  DelegatableAnonCredScheme.verify_chain Z11.dac
    (firstn 1 (fst Z11.chain2), firstn 1 (snd Z11.chain2)) = Ok true.
Proof.
  apply (verify_chain_prefix (L := Z11.lib) Z11.dac (fst Z11.chain2)
           (snd Z11.chain2) 1).
  - reflexivity.
  - lia.
Defined.

Lemma verified_chain_pseudonyms_nonempty_witness :
  fst Z11.chain2 <> [] /\
  length (fst Z11.chain2) = length (snd Z11.chain2) /\
  Forall (fun nym => nym <> []) (fst Z11.chain2).
Proof.
  apply (verified_chain_pseudonyms_nonempty (L := Z11.lib) Z11.dac
           (fst Z11.chain2) (snd Z11.chain2)).
  reflexivity.
Defined.

Lemma issue_next_rescales_witness :
  exists nyms' sigs',
    Z11.chain2 = (nyms' ++ [[Z11.g1 6; Z11.g1 10]], sigs') /\
    rescaled_nyms (fst Z11.chain1) nyms' /\
    length (fst Z11.chain1) = length (snd Z11.chain1) /\
    length sigs' = S (length (snd Z11.chain1)).
Proof.
  apply (issue_next_rescales (L := Z11.lib) Z11.dac (fst Z11.chain1)
           (snd Z11.chain1) [Z11.g1 6; Z11.g1 10] [15; 21] Z11.draws
           (drop_tape 3 Z11.draws) Z11.chain2).
  reflexivity.
Defined.

Lemma issue_next_draws_witness :
  drop_tape 3 Z11.draws 2%nat
  = Z11.draws (3 * length (fst Z11.chain1) + 2)%nat.
Proof.
  apply (issue_next_draws (L := Z11.lib) Z11.dac (fst Z11.chain1)
           (snd Z11.chain1) [Z11.g1 6; Z11.g1 10] [15; 21] Z11.draws
           (drop_tape 3 Z11.draws) Z11.chain2).
  reflexivity.
Defined.

Section IssueFirst.
Context {L : PairingLib}.

Import DelegatableAnonCredScheme.

(** X16.  On an instance built by [__init__(ell)] with [ell >= 1] whose
    root key has no scalar that is a multiple of [r], [issue_first]
    certifies every non-empty list of points of the second curve other
    than the point at infinity, whatever its length, that the root key
    does not sum to the point at infinity: it draws one scalar, returns
    the chain of that one pseudonym, unchanged, with one signature, and
    [verify_chain] accepts the chain, when the scalar drawn is
    invertible. *)
Theorem issue_first_verifies (ell : Z) (t0 t0' : tape) (self : t)
  (nym1 : list point) (tp : tape) :
  1 <= ell ->
  init ell t0 = Ok (self, t0') ->
  unit_key (initial_sk self) ->
  nym1 <> [] ->
  proper_message Dual nym1 ->
  signable (initial_sk self) nym1 ->
  unit_scalar (tp 0%nat) ->
  exists sig1,
    issue_first self nym1 tp = Ok (([nym1], [sig1]), tl_tape tp) /\
    verify_chain self ([nym1], [sig1]) = Ok true.
Proof.
  intros Hell Hinit Hu Hne Hm Hsum Hy.
  destruct (init_Ok ell t0 t0' self Hinit) as (He & _ & _ & Hpk & Hsk & _).
  assert (initial_sk self <> []) as Hsk'
    by (now apply (nonempty_of_length _ ell Hell Hsk)).
  destruct (sign_with_verifies Dual (tp 0%nat) (initial_sk self) nym1
              Hy Hu Hm Hsk' Hne Hsum) as [sig1 [Hs Hv]].
  exists sig1. split.
  - unfold issue_first. rewrite He.
    assert (scheme_sign Dual (initial_sk self) nym1 tp
            = Ok (sig1, tl_tape tp)) as Hsign
      by (now rewrite scheme_sign_with, Hs).
    now rewrite (bind_M _ _ _ _ _ Hsign).
  - apply verify_chain_iff. unfold links_verify, root_link. simpl.
    split; [reflexivity|]. split.
    + exists nym1, sig1. rewrite He, Hpk, scheme_verify_with. auto.
    + intros i Hi. lia.
Qed.

End IssueFirst.

Lemma issue_first_verifies_witness :
  exists sig1,
    DelegatableAnonCredScheme.issue_first Z11.dac
      [Z11.g2 8; Z11.g2 9; Z11.g2 1] Z11.draws
    = Ok (([[Z11.g2 8; Z11.g2 9; Z11.g2 1]], [sig1]), tl_tape Z11.draws) /\
    DelegatableAnonCredScheme.verify_chain Z11.dac
      ([[Z11.g2 8; Z11.g2 9; Z11.g2 1]], [sig1]) = Ok true.
Proof.
  apply (issue_first_verifies (L := Z11.lib) 2 Z11.draws
           (drop_tape 2 Z11.draws) Z11.dac
           [Z11.g2 8; Z11.g2 9; Z11.g2 1] Z11.draws).
  - lia.
  - reflexivity.
  - repeat constructor; vm_compute; discriminate.
  - discriminate.
  - repeat constructor.
  - exists (Z11.g2 10). split; reflexivity.
  - vm_compute; discriminate.
Defined.
